(** * LanguageLearner: the ranking pipeline of [language_streamlit.py]

    A shallow embedding of the five core functions of the script
    ([fetch_top_words], [get_translations], [get_similarity_scores],
    [get_meanings] and the sort-and-truncate step that builds
    [top_matches]) together with the statements its specification makes
    about them.

    Conventions.
    - A Python [str] is a list of Unicode code points ([ustring]).
    - A Python [dict] is an insertion-ordered association list with
      unique keys ([dict]); assignment to a present key keeps the key's
      position and replaces its value.
    - A Python call that can raise returns a [result].
    - The external collaborators ([requests.get], [Word2word],
      [GoogleTranslator], [str.lower], the [unidecode] table) are the
      fields of an environment record [Env]; the pipeline is a function
      of it.
    - A similarity score (a Python float in the source) is the exact
      rational it is computed from, in [Q].
    - The decorator [st.cache_data] memoizes a result per tuple of
      arguments and is left out: every function is modelled as called
      once per run. *)

From Stdlib Require Import Ascii String.
From Stdlib Require Import List Bool Arith NArith ZArith QArith Qabs Lia.
From Stdlib Require Import Sorted Permutation.
Import ListNotations.
Close Scope Q_scope.

Set Implicit Arguments.

(* ================================================================== *)
(** ** Python strings *)

Module PyStr.

(** A [str] is a sequence of code points. *)
Definition ustring := list N.

(** ASCII literals: [u "haus"] is the Python string ['haus']. *)
Definition u (s : string) : ustring :=
  List.map N_of_ascii (list_ascii_of_string s).

(** [a == b]. *)
Fixpoint eqb (a b : ustring) : bool :=
  match a, b with
  | [], [] => true
  | x :: a', y :: b' => N.eqb x y && eqb a' b'
  | _, _ => false
  end.

(** The characters [str.split()] treats as separators
    (those for which [str.isspace] holds). *)
Definition isspace (c : N) : bool :=
  ((9 <=? c) && (c <=? 13) || (28 <=? c) && (c <=? 32)
   || (c =? 133) || (c =? 160) || (c =? 5760)
   || (8192 <=? c) && (c <=? 8202)
   || (c =? 8232) || (c =? 8233) || (c =? 8239) || (c =? 8287)
   || (c =? 12288))%N.

(** The line boundaries of [str.splitlines()]. *)
Definition islinebreak (c : N) : bool :=
  ((10 <=? c) && (c <=? 13) || (28 <=? c) && (c <=? 30)
   || (c =? 133) || (c =? 8232) || (c =? 8233))%N.

(** [split_aux cur s]: [cur] is the token being read, reversed. *)
Fixpoint split_aux (cur : ustring) (s : ustring) : list ustring :=
  match s with
  | [] => match cur with [] => [] | _ => [rev cur] end
  | c :: s' =>
      if isspace c
      then match cur with
           | [] => split_aux [] s'
           | _ => rev cur :: split_aux [] s'
           end
      else split_aux (c :: cur) s'
  end.

(** [s.split()]: the maximal runs of non-space characters. *)
Definition split (s : ustring) : list ustring := split_aux [] s.

(** [splitlines_aux cur s]: [cur] is the line being read, reversed.
    A carriage return followed by a line feed is one boundary. *)
Fixpoint splitlines_aux (cur : ustring) (s : ustring) : list ustring :=
  match s with
  | [] => match cur with [] => [] | _ => [rev cur] end
  | c :: s' =>
      if islinebreak c
      then match s' with
           | d :: s'' =>
               if ((c =? 13) && (d =? 10))%N
               then rev cur :: splitlines_aux [] s''
               else rev cur :: splitlines_aux [] s'
           | [] => rev cur :: splitlines_aux [] s'
           end
      else splitlines_aux (c :: cur) s'
  end.

(** [s.splitlines()]. *)
Definition splitlines (s : ustring) : list ustring := splitlines_aux [] s.

(** A line with a token, and its first token: what is left of the line
    after its leading spaces, up to the next space. *)
Definition has_token (line : ustring) : bool :=
  existsb (fun c => negb (isspace c)) line.

Fixpoint skip_spaces (s : ustring) : ustring :=
  match s with
  | [] => []
  | c :: s' => if isspace c then skip_spaces s' else s
  end.

Fixpoint take_token (s : ustring) : ustring :=
  match s with
  | [] => []
  | c :: s' => if isspace c then [] else c :: take_token s'
  end.

Definition first_token (line : ustring) : ustring :=
  take_token (skip_spaces line).

End PyStr.
Import PyStr.

(* ================================================================== *)
(** ** Python slices [l[:n]] *)

(** [l[:n]] for an integer [n]: a negative [n] counts from the end;
    [None] keeps the whole list. *)
Definition slice_to (A : Type) (n : option Z) (l : list A) : list A :=
  match n with
  | None => l
  | Some z =>
      if (z <? 0)%Z
      then firstn (Z.to_nat (Z.max 0 (Z.of_nat (length l) + z))) l
      else firstn (Z.to_nat z) l
  end.

(* ================================================================== *)
(** ** Python exceptions *)

Inductive exn : Type :=
| ConnectionError
| IndexError
| KeyError
| OtherError (msg : ustring).

(** The outcome of a call: a value, or a raised exception. *)
Inductive result (A : Type) : Type :=
| Ok (a : A)
| Raise (e : exn).
Arguments Ok {A} a.
Arguments Raise {A} e.

Definition bind (A B : Type) (r : result A) (k : A -> result B) : result B :=
  match r with
  | Ok a => k a
  | Raise e => Raise e
  end.

Declare Scope py_scope.
Delimit Scope py_scope with py.
Notation "x <- c1 ;; c2" := (bind c1 (fun x => c2))
  (at level 61, c1 at next level, right associativity) : py_scope.

(** [[f(x) for x in l]] where [f] can raise: the first exception ends
    the comprehension. *)
Fixpoint map_result (A B : Type) (f : A -> result B) (l : list A)
  : result (list B) :=
  match l with
  | [] => Ok []
  | x :: l' =>
      (y <- f x ;; ys <- map_result f l' ;; Ok (y :: ys))%py
  end.

(** [l[0]]. *)
Definition index0 (A : Type) (l : list A) : result A :=
  match l with
  | [] => Raise IndexError
  | x :: _ => Ok x
  end.

(** [try: v = c  except ...: v = d]. *)
Definition try_except (A : Type) (c : result A) (d : A) : A :=
  match c with
  | Ok a => a
  | Raise _ => d
  end.

(* ================================================================== *)
(** ** Python dictionaries keyed by strings *)

Module PyDict.
Section Dict.
Variable V : Type.

(** The items of a dictionary, in insertion order. *)
Definition dict := list (ustring * V).

(** [d.keys()] and [d.items()], as lists. *)
Definition keys (d : dict) : list ustring := List.map fst d.
Definition items (d : dict) : list (ustring * V) := d.

(** No key occurs twice: what holds of every dictionary that the
    program builds. *)
Definition wf (d : dict) : Prop := NoDup (keys d).

(** [d[k]], with [None] standing for [KeyError]. *)
Fixpoint get (k : ustring) (d : dict) : option V :=
  match d with
  | [] => None
  | (k', v) :: d' => if PyStr.eqb k k' then Some v else get k d'
  end.

(** [d[k] = v]: replace in place, or append. *)
Fixpoint set (k : ustring) (v : V) (d : dict) : dict :=
  match d with
  | [] => [(k, v)]
  | (k', v') :: d' =>
      if PyStr.eqb k k' then (k, v) :: d' else (k', v') :: set k v d'
  end.

(** [k in d]. *)
Definition mem (k : ustring) (d : dict) : bool :=
  match get k d with Some _ => true | None => false end.

End Dict.
End PyDict.

(* ================================================================== *)
(** ** [Levenshtein.ratio] *)

(** [ratio] is imported from the package Levenshtein, which is not part
    of the repository. The definitions below follow the package's
    documented definition of the function; the two examples of that
    documentation are checked further down
    ([ratio_documented_example], [ratio_documented_example_disjoint]). *)

Module Levenshtein.

(** Length of a longest common subsequence. *)
Fixpoint lcs (a b : ustring) : nat :=
  match a with
  | [] => 0
  | x :: a' =>
      (fix lcs_row (b : ustring) : nat :=
         match b with
         | [] => 0
         | y :: b' =>
             if (x =? y)%N then S (lcs a' b')
             else Nat.max (lcs a' b) (lcs_row b')
         end) b
  end.

(** [ratio] is the normalized InDel similarity: the InDel distance is
    the least number of single-character insertions and deletions
    turning [a] into [b], obtained from the longest common subsequence;
    the distance is divided by the sum of the lengths, and the
    similarity is one minus that quotient. Two empty strings have
    similarity 1. *)
Definition indel_distance (a b : ustring) : nat :=
  length a + length b - 2 * lcs a b.

Definition indel_normalized_distance (a b : ustring) : Q :=
  let maximum := length a + length b in
  if Nat.eqb maximum 0 then 0%Q
  else (Z.of_nat (indel_distance a b) # Pos.of_nat maximum)%Q.

Definition ratio (a b : ustring) : Q :=
  (1 - indel_normalized_distance a b)%Q.

(** Edit distance with unit-cost insertion and deletion and a
    substitution of cost [xcost] (Wagner-Fischer recurrence).
    [edit_distance 1] is the Levenshtein distance. *)
Fixpoint edit_distance (xcost : nat) (a b : ustring) : nat :=
  match a with
  | [] => length b
  | x :: a' =>
      (fix row (b : ustring) : nat :=
         match b with
         | [] => length a
         | y :: b' =>
             Nat.min (Nat.min (S (edit_distance xcost a' b)) (S (row b')))
                     ((if (x =? y)%N then 0 else xcost)
                      + edit_distance xcost a' b')
         end) b
  end.

Definition levenshtein_distance : ustring -> ustring -> nat :=
  edit_distance 1.

(** The formula as the specification words it, on the Levenshtein
    distance:
    (len(a) + len(b) - 2 * edit_distance(a, b)) / (len(a) + len(b)).
    The numerator is an integer: it is negative when the distance
    exceeds half the sum of the lengths. *)
Definition levenshtein_ratio_formula (a b : ustring) : Q :=
  ((Z.of_nat (length a + length b)
    - 2 * Z.of_nat (levenshtein_distance a b))%Z
   # Pos.of_nat (length a + length b))%Q.

(** [subseq s a]: [s] is obtained from [a] by deleting characters. *)
Inductive subseq : ustring -> ustring -> Prop :=
| subseq_nil : subseq [] []
| subseq_skip s x a : subseq s a -> subseq s (x :: a)
| subseq_take s x a : subseq s a -> subseq (x :: s) (x :: a).

End Levenshtein.

(* ================================================================== *)
(** ** The external collaborators *)

(** The services and library functions the script calls; none is part
    of the repository. Each call of a service carries its number, so
    that two calls with the same arguments may answer differently. The
    exceptions a service raises are those a handler [except Exception]
    catches. *)
Record Env : Type := mkEnv {
  (** [requests.get(url).text], for the [i]-th request of a run. *)
  requests_get : nat -> ustring -> result ustring;
  (** [Word2word(lang1, lang2)]: loading the lexicon of a language pair
      can raise; the loaded lexicon answers the [i]-th query with the
      candidate translations of a word, or raises. *)
  Word2word :
    ustring -> ustring -> result (nat -> ustring -> result (list ustring));
  (** [GoogleTranslator(source=s, target=t).translate(word)], for the
      [i]-th word of a batch. *)
  GoogleTranslator : nat -> ustring -> ustring -> ustring -> result ustring;
  (** [str.lower]. *)
  str_lower : ustring -> ustring;
  (** The transliteration table of [unidecode] for the code points from
      128 on. *)
  unidecode_table : N -> ustring
}.

(** [unidecode(s)], character by character: an ASCII character is kept,
    a code point above 0xEFFFF is dropped, any other one is replaced by
    its table entry (the empty string when the table has none). *)
Definition unidecode (E : Env) (s : ustring) : ustring :=
  flat_map (fun c => if (c <? 128)%N then [c]
                     else if (983039 <? c)%N then []
                     else unidecode_table E c) s.

(* ================================================================== *)
(** ** The pipeline *)

Import PyDict.
Import Levenshtein.
Local Open Scope py_scope.

(** The assignments [d[k] = v] for the items [(k, v)] of [l], in order. *)
Definition assign_all (V : Type) (l : list (ustring * V)) (d : dict V)
  : dict V :=
  fold_left (fun acc kv => set (fst kv) (snd kv) acc) l d.

(** A dictionary built from nothing by such assignments (a dict
    comprehension). *)
Definition dict_from (V : Type) (l : list (ustring * V)) : dict V :=
  assign_all l [].

(** The items a loop [for word in words: d[word] = f(word)] assigns when
    its first call has number [i]. *)
Fixpoint calls (A : Type) (f : nat -> ustring -> A) (i : nat)
         (words : list ustring) : list (ustring * A) :=
  match words with
  | [] => []
  | word :: rest => (word, f i word) :: calls f (S i) rest
  end.

(** [base_url] of [fetch_top_words]. *)
Definition base_url : ustring :=
  u "https://raw.githubusercontent.com/hermitdave/FrequencyWords/master/content/2016".

(** [f"{base_url}/{lang}/{lang}_50k.txt"]. *)
Definition frequency_url (lang : ustring) : ustring :=
  base_url ++ u "/" ++ lang ++ u "/" ++ lang ++ u "_50k.txt".

(** The lines of a response that [get_words] reads. *)
Definition consumed_lines (buffer_count : option Z) (text : ustring)
  : list ustring :=
  slice_to buffer_count (splitlines text).

(** [a or b] on lists: [a] unless it is empty. *)
Definition py_or (A : Type) (a b : list A) : list A :=
  match a with [] => b | _ => a end.

Section Pipeline.
Variable E : Env.

(** The inner function of [fetch_top_words]; [i] numbers the request. *)
Definition get_words (buffer_count : option Z) (i : nat) (lang : ustring)
  : result (list ustring) :=
  let url := frequency_url lang in
  response_text <- requests_get E i url ;;
  map_result (fun line => index0 (split line))
             (slice_to buffer_count (splitlines response_text)).

Definition fetch_top_words (language fallback : ustring)
           (buffer_count : option Z) : result (list ustring) :=
  words <- get_words buffer_count 0 language ;;
  match words with
  | _ :: _ => Ok words
  | [] =>
      words' <- get_words buffer_count 1 fallback ;;
      Ok (py_or words' [])
  end.

(** The body of the [try] in [get_translations]:
    [learn2native(word)[0]], with [None] in the handler. *)
Definition translate_word
           (learn2native : nat -> ustring -> result (list ustring))
           (i : nat) (word : ustring) : option ustring :=
  try_except (candidates <- learn2native i word ;;
              first <- index0 candidates ;;
              Ok (Some first))
             None.

(** The lookup of a word fails: the call raises, or returns no
    candidate. *)
Definition lookup_fails
           (learn2native : nat -> ustring -> result (list ustring))
           (i : nat) (word : ustring) : bool :=
  match learn2native i word with
  | Ok (_ :: _) => false
  | Ok [] => true
  | Raise _ => true
  end.

(** The [for] loop of [get_translations] from its [i]-th iteration. *)
Fixpoint translations_loop
         (learn2native : nat -> ustring -> result (list ustring))
         (i : nat) (top_words : list ustring)
         (translations : dict (option ustring)) : dict (option ustring) :=
  match top_words with
  | [] => translations
  | word :: rest =>
      translations_loop learn2native (S i) rest
        (set word (translate_word learn2native i word) translations)
  end.

Definition get_translations (top_words : list ustring)
           (lang_to_learn native_lang : ustring)
  : result (dict (option ustring)) :=
  learn2native <- Word2word E lang_to_learn native_lang ;;
  Ok (translations_loop learn2native 0 top_words []).

(** The two arguments handed to [ratio]. *)
Definition normalized_word (word : ustring) : ustring :=
  unidecode E (str_lower E word).
Definition normalized_translation (translation : ustring) : ustring :=
  str_lower E (unidecode E translation).

Definition similarity (word translation : ustring) : Q :=
  ratio (normalized_word word) (normalized_translation translation).

Definition get_similarity_scores (translations : dict (option ustring))
  : dict Q :=
  dict_from
    (flat_map (fun word =>
                 match get word translations with
                 | Some (Some translation) =>
                     [(word, similarity word translation)]
                 | _ => []
                 end)
              (keys translations)).

(** The value assigned by the handler of [get_meanings]. *)
Definition no_translation : ustring := u "[No translation]".

(** The [for] loop of [get_meanings] from its [i]-th iteration. *)
Fixpoint meanings_loop (src_lang dest_lang : ustring) (i : nat)
         (words : list ustring) (meanings : dict ustring) : dict ustring :=
  match words with
  | [] => meanings
  | word :: rest =>
      meanings_loop src_lang dest_lang (S i) rest
        (set word
             (try_except (GoogleTranslator E i src_lang dest_lang word)
                         no_translation)
             meanings)
  end.

Definition get_meanings (words : list ustring)
           (src_lang dest_lang : ustring) : dict ustring :=
  meanings_loop src_lang dest_lang 0 words [].

End Pipeline.

(** [sorted(l, key=lambda x: x[1], reverse=True)] is a stable sort by
    decreasing score; here by insertion, an item going in front of the
    first item whose score is not greater. *)
Fixpoint insert_desc (x : ustring * Q) (l : list (ustring * Q))
  : list (ustring * Q) :=
  match l with
  | [] => [x]
  | y :: l' =>
      if Qle_bool (snd y) (snd x) then x :: y :: l'
      else y :: insert_desc x l'
  end.

Definition sorted_desc (l : list (ustring * Q)) : list (ustring * Q) :=
  fold_right insert_desc [] l.

(** [desc x y]: the score of [y] is not above that of [x]. *)
Definition desc (x y : ustring * Q) : Prop := (snd y <= snd x)%Q.

(** [o is not None]. *)
Definition is_not_None (A : Type) (o : option A) : bool :=
  match o with Some _ => true | None => false end.

(** [{word: trans for word, trans in translations.items()
      if trans is not None}]. *)
Definition valid_translations (translations : dict (option ustring))
  : dict (option ustring) :=
  dict_from (filter (fun kv => is_not_None (snd kv)) (items translations)).

(** [sorted(similarity_scores.items(), key=lambda x: x[1],
           reverse=True)]. *)
Definition sorted_matches (similarity_scores : dict Q)
  : list (ustring * Q) :=
  sorted_desc (items similarity_scores).

(** [sorted_matches[:word_count]]. *)
Definition top_matches (similarity_scores : dict Q) (word_count : Z)
  : list (ustring * Q) :=
  slice_to (Some word_count) (sorted_matches similarity_scores).

(** [[k for k, _ in top_matches]]. *)
Definition selected_words (top : list (ustring * Q)) : list ustring :=
  List.map fst top.

Definition fallback_lang : ustring := u "en".

(** [x] is [s] to two decimals, up to half a unit of the last one. *)
Definition approx2 (s x : Q) : Prop := (Qabs (s - x) <= 1 # 200)%Q.

(** What one run of the script computes before rendering. *)
Record Run : Type := mkRun {
  run_fetched_words : list ustring;
  run_translations : dict (option ustring);
  run_valid_translations : dict (option ustring);
  run_similarity_scores : dict Q;
  run_top_matches : list (ustring * Q);
  run_selected_meanings : dict ustring
}.

(** The body of [if lang_to_learn and native_lang:]. *)
Definition run (E : Env) (lang_to_learn native_lang : ustring)
           (word_count : Z) : result Run :=
  fetched_words <- fetch_top_words E lang_to_learn fallback_lang (Some 100%Z) ;;
  translations <- get_translations E fetched_words lang_to_learn native_lang ;;
  let valid := valid_translations translations in
  let similarity_scores := get_similarity_scores E valid in
  let top := top_matches similarity_scores word_count in
  let selected_meanings :=
    get_meanings E (selected_words top) lang_to_learn native_lang in
  Ok (mkRun fetched_words translations valid similarity_scores top
            selected_meanings).

(* ================================================================== *)
(** ** A concrete environment *)

Module Sample.

(** [str.lower] on strings whose upper-case characters are ASCII. *)
Definition ascii_lower (s : ustring) : ustring :=
  List.map (fun c => if ((65 <=? c) && (c <=? 90))%N then (c + 32)%N else c) s.

(** Entries of the [unidecode] table: U+5317 and U+4EB0 (the two
    characters of the library's own usage example, whose
    transliteration is ["Bei Jing "]) and a few Latin-1 letters. *)
Definition table (c : N) : ustring :=
  if (c =? 0x5317)%N then u "Bei "
  else if (c =? 0x4EB0)%N then u "Jing "
  else if (c =? 0xE4)%N then u "a"
  else if (c =? 0xF6)%N then u "o"
  else if (c =? 0xFC)%N then u "u"
  else if (c =? 0xDF)%N then u "ss"
  else if (c =? 0xE9)%N then u "e"
  else [].

(** A German to English lexicon with three entries; any other pair of
    languages has no lexicon. *)
Definition lexicon (_ : nat) (word : ustring) : result (list ustring) :=
  if PyStr.eqb word (u "haus") then Ok [u "house"; u "home"]
  else if PyStr.eqb word (u "auto") then Ok [u "car"]
  else if PyStr.eqb word (u "buch") then Ok [u "book"]
  else Raise KeyError.

Definition word2word (lang1 lang2 : ustring)
  : result (nat -> ustring -> result (list ustring)) :=
  if PyStr.eqb lang1 (u "de") && PyStr.eqb lang2 (u "en") then Ok lexicon
  else Raise (OtherError (u "Language pair is not supported.")).

(** The frequency list of German has three words, one of them unknown
    to the lexicon; the list of the code xx is an empty text, and no
    other list can be fetched. *)
Definition frequency_de : ustring :=
  u "haus 120" ++ [10%N] ++ u "zug 90" ++ [10%N] ++ u "buch 80" ++ [10%N].

Definition fetch (_ : nat) (url : ustring) : result ustring :=
  if PyStr.eqb url (frequency_url (u "de")) then Ok frequency_de
  else if PyStr.eqb url (frequency_url (u "xx")) then Ok []
  else Raise ConnectionError.

(** The translation service knows one word. *)
Definition google (_ : nat) (src dest word : ustring) : result ustring :=
  if PyStr.eqb word (u "haus") then Ok (u "house")
  else Raise (OtherError (u "request failed")).

Definition env : Env := mkEnv fetch word2word google ascii_lower table.

(** A lexicon whose answer changes between the first query and the
    later ones. *)
Definition lexicon_by_call (i : nat) (_ : ustring) : result (list ustring) :=
  Ok [if Nat.eqb i 0 then u "home" else u "house"].

Definition env_by_call : Env :=
  mkEnv fetch (fun _ _ => Ok lexicon_by_call) google ascii_lower table.

(** The same, with a frequency list that has an empty line. *)
Definition fetch_blank (_ : nat) (url : ustring) : result ustring :=
  Ok (u "haus 120" ++ [10%N; 10%N] ++ u "auto 90").

Definition env_blank : Env :=
  mkEnv fetch_blank word2word google ascii_lower table.

End Sample.

(* ================================================================== *)
(** ** The flashcards *)

(** What the loop over [top_matches] shows under a word: the entry
    [translations[word]] and, below it, either the exact-match line
    (when [score == 1.0]) or the score. *)
Inductive CardLine : Type :=
| ExactMatch
| SimilarityScore (score : Q).

Record Flashcard : Type := mkFlashcard {
  card_word : ustring;
  card_translation : option ustring;
  card_line : CardLine
}.

(** One iteration of [for word, score in top_matches:]; the subscript
    [translations[word]] raises [KeyError] on a missing key. *)
Definition flashcard (translations : dict (option ustring))
           (item : ustring * Q) : result Flashcard :=
  match get (fst item) translations with
  | None => Raise KeyError
  | Some translation =>
      Ok (mkFlashcard (fst item) translation
                      (if Qeq_bool (snd item) 1 then ExactMatch
                       else SimilarityScore (snd item)))
  end.

Definition flashcards (translations : dict (option ustring))
           (top : list (ustring * Q)) : result (list Flashcard) :=
  map_result (flashcard translations) top.

(** The whole script: the computations of [run], then the cards. *)
Definition script (E : Env) (lang_to_learn native_lang : ustring)
           (word_count : Z) : result (Run * list Flashcard) :=
  r <- run E lang_to_learn native_lang word_count ;;
  cards <- flashcards (run_translations r) (run_top_matches r) ;;
  Ok (r, cards).

(* ================================================================== *)
(** ** Orders of appearance *)

(** The elements of a list, each at its first occurrence. *)
Fixpoint dedup_first (l : list ustring) : list ustring :=
  match l with
  | [] => []
  | x :: l' => x :: filter (fun y => negb (PyStr.eqb y x)) (dedup_first l')
  end.

(** [x] occurs in [l] at some place before an occurrence of [y]. *)
Definition before (A : Type) (x y : A) (l : list A) : Prop :=
  exists l1 l2 l3, l = l1 ++ x :: l2 ++ y :: l3.

(** [translations[word] is not None], for a key of the dictionary. *)
Definition has_translation (translations : dict (option ustring))
           (word : ustring) : bool :=
  match get word translations with
  | Some (Some _) => true
  | _ => false
  end.

(* ================================================================== *)
(** ** A server that answers with an error page *)

Module SampleNotFound.

(** Every request is answered with the text of an error page. *)
Definition fetch (_ : nat) (_ : ustring) : result ustring :=
  Ok (u "404: Not Found").

Definition env : Env :=
  mkEnv fetch Sample.word2word Sample.google Sample.ascii_lower Sample.table.

End SampleNotFound.

(* ================================================================== *)
(** ** A frequency list with two equally similar words *)

Module SampleTie.

(** The candidates are as far from "abcd" as "car" is from "auto". *)
Definition lexicon (_ : nat) (word : ustring) : result (list ustring) :=
  if PyStr.eqb word (u "auto") then Ok [u "car"]
  else if PyStr.eqb word (u "abcd") then Ok [u "axy"]
  else if PyStr.eqb word (u "haus") then Ok [u "house"]
  else Raise KeyError.

Definition fetch (_ : nat) (_ : ustring) : result ustring :=
  Ok (u "auto 9" ++ [10%N] ++ u "abcd 8" ++ [10%N] ++ u "haus 7").

Definition env : Env :=
  mkEnv fetch (fun _ _ => Ok lexicon) Sample.google Sample.ascii_lower
        Sample.table.

End SampleTie.

(* ================================================================== *)
(** * Properties *)

(** ** Strings *)

Lemma ustring_eqb_spec (a b : ustring) : reflect (a = b) (eqb a b).
Proof.
  revert b; induction a as [|x a IH]; intros [|y b]; simpl;
    try (constructor; congruence).
  destruct (N.eqb_spec x y) as [->|Hne]; simpl.
  - destruct (IH b) as [->|Hne]; constructor; congruence.
  - constructor; congruence.
Qed.

Lemma ustring_eqb_refl (a : ustring) : eqb a a = true.
Proof. destruct (ustring_eqb_spec a a); congruence. Qed.

Lemma ustring_eqb_eq (a b : ustring) : eqb a b = true <-> a = b.
Proof. destruct (ustring_eqb_spec a b); split; congruence. Qed.

Lemma ustring_eqb_neq (a b : ustring) : eqb a b = false <-> a <> b.
Proof. destruct (ustring_eqb_spec a b); split; congruence. Qed.

(** ** Dictionaries *)

Section DictFacts.
Variable V : Type.
Implicit Types (d : dict V) (v : V) (k : ustring).

Lemma dict_get_set_same k v d : get k (set k v d) = Some v.
Proof.
  induction d as [|[k' v'] d IH]; simpl.
  - now rewrite ustring_eqb_refl.
  - destruct (eqb k k') eqn:E; simpl.
    + now rewrite ustring_eqb_refl.
    + now rewrite E.
Qed.

Lemma dict_get_set_other k k' v d : k <> k' -> get k (set k' v d) = get k d.
Proof.
  intros Hne. induction d as [|[k0 v0] d IH]; simpl.
  - apply ustring_eqb_neq in Hne. now rewrite Hne.
  - destruct (eqb k' k0) eqn:E; simpl.
    + apply ustring_eqb_eq in E; subst k0.
      apply ustring_eqb_neq in Hne. now rewrite Hne.
    + now rewrite IH.
Qed.

Lemma dict_get_None_iff k d : get k d = None <-> ~ In k (keys d).
Proof.
  induction d as [|[k' v'] d IH]; simpl.
  - tauto.
  - destruct (ustring_eqb_spec k k') as [->|Hne].
    + split; [discriminate | intros H; exfalso; apply H; now left].
    + rewrite IH. split; intros H; [intros [Heq|Hin]|]; try tauto.
      congruence.
Qed.

Lemma dict_get_Some_In k v d : get k d = Some v -> In (k, v) d.
Proof.
  induction d as [|[k' v'] d IH]; simpl; [discriminate|].
  destruct (ustring_eqb_spec k k') as [->|Hne].
  - intros [= ->]. now left.
  - intros H. right. auto.
Qed.

(** In a dictionary an item is what [get] finds under its key. *)
Lemma dict_In_get_wf k v d : wf d -> In (k, v) d -> get k d = Some v.
Proof.
  unfold wf, keys.
  induction d as [|[k' v'] d IH]; simpl; [tauto|].
  intros Hnd [Heq|Hin].
  - inversion Heq; subst. now rewrite ustring_eqb_refl.
  - inversion Hnd as [|? ? Hnotin Hnd']; subst.
    destruct (ustring_eqb_spec k k') as [->|Hne].
    + exfalso. apply Hnotin. now apply (in_map fst) in Hin.
    + auto.
Qed.

(** Assignment keeps the order of the keys already present and adds a
    new key at the end. *)
Lemma dict_keys_set k v d :
  keys (set k v d) = if mem k d then keys d else keys d ++ [k].
Proof.
  unfold keys, mem. induction d as [|[k' v'] d IH]; simpl; [reflexivity|].
  destruct (ustring_eqb_spec k k') as [->|Hne]; simpl; [reflexivity|].
  rewrite IH. now destruct (get k d).
Qed.

Lemma dict_wf_nil : wf (@nil (ustring * V)).
Proof. constructor. Qed.

Lemma dict_wf_set k v d : wf d -> wf (set k v d).
Proof.
  unfold wf. intros Hnd. rewrite dict_keys_set. unfold mem.
  destruct (get k d) eqn:E; [assumption|].
  apply dict_get_None_iff in E.
  apply NoDup_app; [assumption | repeat constructor; simpl; tauto |].
  intros x Hx [<-|[]]. contradiction.
Qed.

Lemma dict_In_keys_set k k' v d :
  In k (keys (set k' v d)) <-> k = k' \/ In k (keys d).
Proof.
  rewrite dict_keys_set. unfold mem. destruct (get k' d) eqn:E.
  - split; [tauto|]. intros [->|H]; [|assumption].
    destruct (in_dec (list_eq_dec N.eq_dec) k' (keys d)) as [Hin|Hnin];
      [assumption|].
    apply dict_get_None_iff in Hnin. congruence.
  - rewrite in_app_iff; simpl. split; intros H; intuition congruence.
Qed.

End DictFacts.

(** ** Longest common subsequences and edit distances *)

Lemma lcs_cons x a y b :
  lcs (x :: a) (y :: b) =
    if (x =? y)%N then S (lcs a b)
    else Nat.max (lcs a (y :: b)) (lcs (x :: a) b).
Proof. reflexivity. Qed.

Lemma lcs_nil_r a : lcs a [] = 0.
Proof. now destruct a. Qed.

Lemma edit_distance_cons c x a y b :
  edit_distance c (x :: a) (y :: b) =
    Nat.min (Nat.min (S (edit_distance c a (y :: b)))
                     (S (edit_distance c (x :: a) b)))
            ((if (x =? y)%N then 0 else c) + edit_distance c a b).
Proof. reflexivity. Qed.

Lemma edit_distance_nil_r c a : edit_distance c a [] = length a.
Proof. now destruct a. Qed.

Lemma subseq_nil_l a : subseq [] a.
Proof. induction a; constructor; assumption. Qed.

Lemma subseq_refl a : subseq a a.
Proof. induction a; constructor; assumption. Qed.

Lemma subseq_tail x s a : subseq (x :: s) a -> subseq s a.
Proof.
  intros H. remember (x :: s) as xs eqn:E. revert x s E.
  induction H as [|s' y a H IH|s' y a H IH]; intros x s E.
  - discriminate.
  - constructor. eapply IH; eassumption.
  - inversion E; subst. now constructor.
Qed.

Lemma subseq_cons_inv z s x a :
  subseq (z :: s) (x :: a) ->
  subseq (z :: s) a \/ (z = x /\ subseq s a).
Proof. intros H. inversion H; subst; auto. Qed.

Lemma subseq_length s a : subseq s a -> length s <= length a.
Proof. induction 1; simpl; lia. Qed.

(** [lcs a b] bounds the length of every common subsequence ... *)
Lemma lcs_upper a : forall b s, subseq s a -> subseq s b -> length s <= lcs a b.
Proof.
  induction a as [|x a IHa]; intros b s Ha Hb.
  - inversion Ha; subst. simpl. lia.
  - induction b as [|y b IHb].
    + inversion Hb; subst. simpl. lia.
    + rewrite lcs_cons. destruct s as [|z s]; [simpl; lia|].
      destruct (subseq_cons_inv Ha) as [Ha'|[-> Ha']];
        destruct (subseq_cons_inv Hb) as [Hb'|[Ey Hb']].
      * destruct (x =? y)%N.
        -- specialize (IHa b s (subseq_tail Ha') (subseq_tail Hb')).
           simpl. lia.
        -- specialize (IHa (y :: b) (z :: s) Ha' Hb). lia.
      * subst y. destruct (x =? z)%N.
        -- specialize (IHa b s (subseq_tail Ha') Hb'). simpl. lia.
        -- specialize (IHa (z :: b) (z :: s) Ha' Hb). lia.
      * destruct (x =? y)%N.
        -- specialize (IHa b s Ha' (subseq_tail Hb')). simpl. lia.
        -- specialize (IHb Hb'). lia.
      * subst y. rewrite N.eqb_refl.
        specialize (IHa b s Ha' Hb'). simpl. lia.
Qed.

(** ... and is the length of one. *)
Lemma lcs_attained a : forall b,
    exists s, subseq s a /\ subseq s b /\ length s = lcs a b.
Proof.
  induction a as [|x a IHa]; intros b.
  - exists []. simpl. auto using subseq_nil_l.
  - induction b as [|y b IHb].
    + exists []. simpl. auto using subseq_nil_l.
    + rewrite lcs_cons. destruct (N.eqb_spec x y) as [->|Hne].
      * destruct (IHa b) as (s & H1 & H2 & H3).
        exists (y :: s). simpl. auto using subseq_take.
      * destruct (Nat.max_spec (lcs a (y :: b)) (lcs (x :: a) b))
          as [[_ ->]|[_ ->]].
        -- destruct IHb as (s & H1 & H2 & H3).
           exists s. auto using subseq_skip.
        -- destruct (IHa (y :: b)) as (s & H1 & H2 & H3).
           exists s. auto using subseq_skip.
Qed.

Lemma lcs_le_l a b : lcs a b <= length a.
Proof.
  destruct (lcs_attained a b) as (s & H1 & _ & <-).
  now apply subseq_length.
Qed.

Lemma lcs_le_r a b : lcs a b <= length b.
Proof.
  destruct (lcs_attained a b) as (s & _ & H2 & <-).
  now apply subseq_length.
Qed.

Lemma lcs_refl a : lcs a a = length a.
Proof.
  apply Nat.le_antisymm; [apply lcs_le_l|].
  apply lcs_upper; apply subseq_refl.
Qed.

Lemma lcs_mono_l x a b : lcs a b <= lcs (x :: a) b.
Proof.
  destruct (lcs_attained a b) as (s & H1 & H2 & <-).
  apply lcs_upper; auto using subseq_skip.
Qed.

Lemma lcs_mono_r y a b : lcs a b <= lcs a (y :: b).
Proof.
  destruct (lcs_attained a b) as (s & H1 & H2 & <-).
  apply lcs_upper; auto using subseq_skip.
Qed.

Lemma lcs_step_l x a b : lcs (x :: a) b <= S (lcs a b).
Proof.
  destruct (lcs_attained (x :: a) b) as (s & H1 & H2 & <-).
  destruct s as [|z s]; [simpl; lia|].
  assert (Hs : subseq s b) by (eapply subseq_tail; eassumption).
  destruct (subseq_cons_inv H1) as [H|[_ H]].
  - apply subseq_tail in H. pose proof (lcs_upper H Hs). simpl. lia.
  - pose proof (lcs_upper H Hs). simpl. lia.
Qed.

Lemma lcs_step_r y a b : lcs a (y :: b) <= S (lcs a b).
Proof.
  destruct (lcs_attained a (y :: b)) as (s & H1 & H2 & <-).
  destruct s as [|z s]; [simpl; lia|].
  assert (Hs : subseq s a) by (eapply subseq_tail; eassumption).
  destruct (subseq_cons_inv H2) as [H|[_ H]].
  - apply subseq_tail in H. pose proof (lcs_upper Hs H). simpl. lia.
  - pose proof (lcs_upper Hs H). simpl. lia.
Qed.

(** A subsequence as long as the string is the string. *)
Lemma subseq_full s a : subseq s a -> length s = length a -> s = a.
Proof.
  induction 1 as [|s x a H IH|s x a H IH]; simpl; intros E.
  - reflexivity.
  - apply subseq_length in H. lia.
  - f_equal. apply IH. lia.
Qed.

Lemma lcs_full a b : lcs a b = length a -> lcs a b = length b -> a = b.
Proof.
  intros Ea Eb.
  destruct (lcs_attained a b) as (s & H1 & H2 & H3).
  rewrite <- (subseq_full H1) by congruence.
  apply subseq_full; congruence.
Qed.

(** The InDel distance is the edit distance in which a substitution
    costs as much as a deletion followed by an insertion. *)
Lemma edit_distance_2_lcs a : forall b,
    edit_distance 2 a b + 2 * lcs a b = length a + length b.
Proof.
  induction a as [|x a IHa]; intros b; [simpl; lia|].
  induction b as [|y b IHb].
  - rewrite edit_distance_nil_r, lcs_nil_r. simpl. lia.
  - rewrite edit_distance_cons, lcs_cons.
    pose proof (IHa (y :: b)) as H1. pose proof (IHa b) as H0.
    pose proof (lcs_mono_l x a b). pose proof (lcs_mono_r y a b).
    pose proof (lcs_step_l x a b). pose proof (lcs_step_r y a b).
    pose proof (lcs_le_l a b). pose proof (lcs_le_r a b).
    simpl length in *.
    destruct (x =? y)%N; lia.
Qed.

Lemma indel_distance_edit a b : indel_distance a b = edit_distance 2 a b.
Proof.
  unfold indel_distance. pose proof (edit_distance_2_lcs a b). lia.
Qed.

Lemma indel_distance_le a b : indel_distance a b <= length a + length b.
Proof. unfold indel_distance. lia. Qed.

Lemma indel_distance_0 a b : indel_distance a b = 0 <-> a = b.
Proof.
  unfold indel_distance. split.
  - intros H. pose proof (lcs_le_l a b). pose proof (lcs_le_r a b).
    apply lcs_full; lia.
  - intros ->. rewrite lcs_refl. lia.
Qed.

(** ** The similarity ratio *)

Lemma Zpos_of_nat (n : nat) : n <> 0 -> Z.pos (Pos.of_nat n) = Z.of_nat n.
Proof.
  intros Hn. rewrite <- positive_nat_Z. now rewrite Nat2Pos.id.
Qed.

(** The ratio as a single quotient. *)
Lemma ratio_quotient (a b : ustring) :
  length a + length b <> 0 ->
  (ratio a b ==
   (Z.of_nat (length a + length b) - Z.of_nat (indel_distance a b))%Z
     # Pos.of_nat (length a + length b))%Q.
Proof.
  intros Hn. unfold ratio, indel_normalized_distance.
  destruct (Nat.eqb_spec (length a + length b) 0) as [E|_]; [contradiction|].
  unfold Qeq, Qminus, Qplus, Qopp; cbn [Qnum Qden].
  rewrite ?Pos.mul_1_l, (Zpos_of_nat Hn). ring.
Qed.

Lemma ratio_empty (a b : ustring) :
  length a + length b = 0 -> (ratio a b == 1)%Q.
Proof.
  intros Hn. unfold ratio, indel_normalized_distance.
  rewrite Hn. reflexivity.
Qed.

Lemma ratio_bounds (a b : ustring) : (0 <= ratio a b /\ ratio a b <= 1)%Q.
Proof.
  destruct (Nat.eq_dec (length a + length b) 0) as [E|Hn].
  - rewrite (ratio_empty _ _ E). split; discriminate.
  - rewrite (ratio_quotient a b Hn).
    pose proof (indel_distance_le a b) as Hle.
    unfold Qle; simpl. rewrite (Zpos_of_nat Hn). split; lia.
Qed.

Lemma ratio_1_iff (a b : ustring) : (ratio a b == 1)%Q <-> a = b.
Proof.
  rewrite <- indel_distance_0.
  destruct (Nat.eq_dec (length a + length b) 0) as [E|Hn].
  - rewrite (ratio_empty _ _ E).
    pose proof (indel_distance_le a b). split; [lia | reflexivity].
  - rewrite (ratio_quotient a b Hn).
    unfold Qeq; simpl. rewrite (Zpos_of_nat Hn). lia.
Qed.

(** The ratio is twice the length of a longest common subsequence over
    the sum of the lengths. *)
Lemma ratio_lcs (a b : ustring) :
  length a + length b <> 0 ->
  (ratio a b == Z.of_nat (2 * lcs a b) # Pos.of_nat (length a + length b))%Q.
Proof.
  intros Hn. rewrite (ratio_quotient a b Hn).
  pose proof (lcs_le_l a b). pose proof (lcs_le_r a b).
  unfold indel_distance, Qeq; cbn [Qnum Qden]. f_equal. lia.
Qed.

(** ** Dictionaries built by a sequence of assignments *)

Section AssignFacts.
Variable V : Type.
Implicit Types (d acc : dict V) (v : V) (k : ustring) (l : list (ustring * V)).

Lemma assign_all_cons k v l acc :
  assign_all ((k, v) :: l) acc = assign_all l (set k v acc).
Proof. reflexivity. Qed.

Lemma assign_all_app l1 l2 acc :
  assign_all (l1 ++ l2) acc = assign_all l2 (assign_all l1 acc).
Proof. unfold assign_all. apply fold_left_app. Qed.

Lemma assign_all_wf l : forall acc, wf acc -> wf (assign_all l acc).
Proof.
  induction l as [|[k v] l IH]; intros acc Hwf; [assumption|].
  rewrite assign_all_cons. apply IH. now apply dict_wf_set.
Qed.

Lemma dict_from_wf l : wf (dict_from l).
Proof. apply assign_all_wf, dict_wf_nil. Qed.

Lemma assign_all_keys l : forall acc k,
    In k (keys (assign_all l acc)) <-> In k (keys acc) \/ In k (List.map fst l).
Proof.
  induction l as [|[k0 v0] l IH]; intros acc k; simpl.
  - tauto.
  - fold (assign_all l (set k0 v0 acc)).
    rewrite IH, dict_In_keys_set. intuition congruence.
Qed.

(** A key that is not assigned keeps its entry. *)
Lemma assign_all_get_other l : forall acc k,
    ~ In k (List.map fst l) -> get k (assign_all l acc) = get k acc.
Proof.
  induction l as [|[k0 v0] l IH]; intros acc k Hnin; [reflexivity|].
  rewrite assign_all_cons, IH by (simpl in Hnin; tauto).
  apply dict_get_set_other. simpl in Hnin. intros ->. tauto.
Qed.

(** The last assignment to a key decides its entry. *)
Lemma assign_all_get_last l1 k v l2 acc :
  ~ In k (List.map fst l2) ->
  get k (assign_all (l1 ++ (k, v) :: l2) acc) = Some v.
Proof.
  intros Hnin. rewrite assign_all_app, assign_all_cons.
  rewrite assign_all_get_other by assumption.
  apply dict_get_set_same.
Qed.

(** An entry comes from an assignment or was there before. *)
Lemma assign_all_get_inv l : forall acc k v,
    get k (assign_all l acc) = Some v -> In (k, v) l \/ get k acc = Some v.
Proof.
  induction l as [|[k0 v0] l IH]; intros acc k v H; [now right|].
  rewrite assign_all_cons in H. destruct (IH _ _ _ H) as [Hin|Hget].
  - left. now right.
  - destruct (ustring_eqb_spec k k0) as [->|Hne].
    + rewrite dict_get_set_same in Hget. inversion Hget; subst.
      left. now left.
    + rewrite dict_get_set_other in Hget by assumption. now right.
Qed.

(** An assigned key has the value of one of its assignments. *)
Lemma assign_all_get_In l : forall acc k,
    In k (List.map fst l) ->
    exists v, In (k, v) l /\ get k (assign_all l acc) = Some v.
Proof.
  induction l as [|[k0 v0] l IH]; intros acc k Hin; [destruct Hin|].
  rewrite assign_all_cons.
  destruct (in_dec (list_eq_dec N.eq_dec) k (List.map fst l)) as [Hl|Hl].
  - destruct (IH (set k0 v0 acc) k Hl) as (v & H1 & H2).
    exists v. split; [now right | assumption].
  - destruct Hin as [Heq|Hin]; [|contradiction]. simpl in Heq; subst k0.
    exists v0. split; [now left|].
    rewrite assign_all_get_other by assumption. apply dict_get_set_same.
Qed.

Lemma set_fresh k v acc :
  ~ In k (keys acc) -> set k v acc = acc ++ [(k, v)].
Proof.
  induction acc as [|[k' v'] acc IH]; simpl; intros Hnin; [reflexivity|].
  destruct (ustring_eqb_spec k k') as [->|Hne]; [tauto|].
  rewrite IH by tauto. reflexivity.
Qed.

(** Assignments to pairwise distinct fresh keys append the items. *)
Lemma assign_all_fresh l : forall acc,
    NoDup (keys acc ++ List.map fst l) -> assign_all l acc = acc ++ l.
Proof.
  induction l as [|[k v] l IH]; intros acc Hnd; simpl.
  - now rewrite app_nil_r.
  - fold (assign_all l (set k v acc)).
    assert (Hk : ~ In k (keys acc)).
    { apply NoDup_remove_2 in Hnd. rewrite in_app_iff in Hnd. tauto. }
    rewrite set_fresh by exact Hk. rewrite IH.
    + now rewrite <- app_assoc.
    + unfold keys in *. rewrite map_app, <- app_assoc. exact Hnd.
Qed.

Lemma dict_from_wf_id l : NoDup (List.map fst l) -> dict_from l = l.
Proof. intros H. unfold dict_from. now rewrite assign_all_fresh. Qed.

End AssignFacts.

Lemma calls_keys (A : Type) (f : nat -> ustring -> A) words :
  forall i, List.map fst (calls f i words) = words.
Proof.
  induction words as [|w ws IH]; intros i; simpl; [reflexivity|].
  now rewrite IH.
Qed.

Lemma calls_app (A : Type) (f : nat -> ustring -> A) pre post :
  forall i, calls f i (pre ++ post)
            = calls f i pre ++ calls f (i + length pre) post.
Proof.
  induction pre as [|w pre IH]; intros i; simpl.
  - now rewrite Nat.add_0_r.
  - rewrite IH. do 3 f_equal. lia.
Qed.

(** ** The two loops *)

Lemma translations_loop_calls learn2native words :
  forall i acc,
    translations_loop learn2native i words acc
    = assign_all (calls (translate_word learn2native) i words) acc.
Proof.
  induction words as [|w ws IH]; intros i acc; simpl; [reflexivity|].
  now rewrite IH.
Qed.

Lemma meanings_loop_calls (E : Env) src dest words :
  forall i acc,
    meanings_loop E src dest i words acc
    = assign_all
        (calls (fun i word =>
                  try_except (GoogleTranslator E i src dest word)
                             no_translation) i words) acc.
Proof.
  induction words as [|w ws IH]; intros i acc; simpl; [reflexivity|].
  now rewrite IH.
Qed.

(** A loop of assignments over [words]: the keys are the words, each
    once, and a word has the value computed at its last occurrence. *)
Lemma loop_keys (A : Type) (f : nat -> ustring -> A) words k :
  In k (keys (assign_all (calls f 0 words) [])) <-> In k words.
Proof.
  rewrite assign_all_keys, calls_keys. simpl. tauto.
Qed.

Lemma loop_last (A : Type) (f : nat -> ustring -> A) pre w post :
  ~ In w post ->
  get w (assign_all (calls f 0 (pre ++ w :: post)) [])
  = Some (f (length pre) w).
Proof.
  intros Hnin. rewrite calls_app. simpl.
  apply assign_all_get_last. now rewrite calls_keys.
Qed.

(** ** Sorting *)

Lemma insert_desc_perm x l : Permutation (insert_desc x l) (x :: l).
Proof.
  induction l as [|y l IH]; simpl; [reflexivity|].
  destruct (Qle_bool (snd y) (snd x)); [reflexivity|].
  rewrite IH. apply perm_swap.
Qed.

Lemma sorted_desc_perm l : Permutation (sorted_desc l) l.
Proof.
  induction l as [|x l IH]; simpl; [reflexivity|].
  rewrite insert_desc_perm. now constructor.
Qed.

Lemma sorted_desc_length l : length (sorted_desc l) = length l.
Proof. apply Permutation_length, sorted_desc_perm. Qed.

Lemma insert_desc_sorted x l :
  StronglySorted desc l -> StronglySorted desc (insert_desc x l).
Proof.
  induction l as [|y l IH]; simpl; intros Hs.
  - repeat constructor.
  - inversion Hs as [|? ? Hs' Hall]; subst.
    destruct (Qle_bool (snd y) (snd x)) eqn:E.
    + apply Qle_bool_iff in E. constructor; [assumption|].
      constructor; [exact E|].
      eapply Forall_impl; [|exact Hall].
      intros z Hz. unfold desc in *. eapply Qle_trans; eassumption.
    + assert (Hlt : (snd x < snd y)%Q).
      { apply Qnot_le_lt. intros H. apply Qle_bool_iff in H. congruence. }
      constructor; [now apply IH|].
      apply Forall_forall. intros z Hz.
      apply (Permutation_in _ (insert_desc_perm x l)) in Hz.
      destruct Hz as [<-|Hz].
      * unfold desc. now apply Qlt_le_weak.
      * rewrite Forall_forall in Hall. now apply Hall.
Qed.

Lemma sorted_desc_sorted l : StronglySorted desc (sorted_desc l).
Proof.
  induction l as [|x l IH]; simpl; [constructor|].
  now apply insert_desc_sorted.
Qed.

Lemma StronglySorted_firstn (A : Type) (R : A -> A -> Prop) n :
  forall l, StronglySorted R l -> StronglySorted R (firstn n l).
Proof.
  induction n as [|n IH]; intros l Hs; [constructor|].
  destruct l as [|x l]; [constructor|]. simpl.
  inversion Hs as [|? ? Hs' Hall]; subst.
  constructor; [now apply IH|].
  apply Forall_forall. intros z Hz. rewrite Forall_forall in Hall.
  apply Hall. rewrite <- (firstn_skipn n l). apply in_or_app. now left.
Qed.

Lemma NoDup_firstn (A : Type) n :
  forall l : list A, NoDup l -> NoDup (firstn n l).
Proof.
  induction n as [|n IH]; intros l Hnd; [constructor|].
  destruct l as [|x l]; [constructor|]. simpl.
  inversion Hnd as [|? ? Hnin Hnd']; subst.
  constructor; [|now apply IH].
  intros Hin. apply Hnin.
  rewrite <- (firstn_skipn n l). apply in_or_app. now left.
Qed.

(** A slice [l[:n]] is a prefix of [l]. *)
Lemma slice_to_prefix (A : Type) (n : option Z) (l : list A) :
  exists k, slice_to n l = firstn k l.
Proof.
  destruct n as [z|]; simpl.
  - destruct (z <? 0)%Z; eexists; reflexivity.
  - exists (length l). now rewrite firstn_all.
Qed.

Lemma slice_to_nonneg (A : Type) (z : Z) (l : list A) :
  (0 <= z)%Z -> slice_to (Some z) l = firstn (Z.to_nat z) l.
Proof.
  intros Hz. simpl. destruct (Z.ltb_spec z 0); [lia | reflexivity].
Qed.

(** ** Tokens *)

Lemma split_aux_token s : forall cur,
    cur <> [] ->
    exists rest, split_aux cur s = (rev cur ++ take_token s) :: rest.
Proof.
  induction s as [|c s IH]; intros cur Hcur; simpl.
  - destruct cur; [contradiction|]. rewrite app_nil_r. now eexists.
  - destruct (isspace c).
    + destruct cur; [contradiction|]. rewrite app_nil_r. now eexists.
    + destruct (IH (c :: cur)) as [rest Hrest]; [discriminate|].
      exists rest. rewrite Hrest. simpl. now rewrite <- app_assoc.
Qed.

Lemma split_first_token line :
  index0 (split line)
  = if has_token line then Ok (first_token line) else Raise IndexError.
Proof.
  unfold split, first_token, has_token.
  induction line as [|c s IH]; simpl; [reflexivity|].
  destruct (isspace c) eqn:Ec; simpl; [exact IH|]. rewrite Ec.
  destruct (split_aux_token s (cur := [c])) as [rest ->]; [discriminate|].
  reflexivity.
Qed.

Lemma map_result_Ok (A B : Type) (f : A -> result B) (g : A -> B) l :
  (forall x, In x l -> f x = Ok (g x)) ->
  map_result f l = Ok (List.map g l).
Proof.
  induction l as [|x l IH]; intros H; simpl; [reflexivity|].
  rewrite (H x) by now left. simpl.
  rewrite IH by (intros; apply H; now right). reflexivity.
Qed.

Lemma map_result_Raise (A B : Type) (f : A -> result B) l x e :
  In x l -> f x = Raise e -> exists e', map_result f l = Raise e'.
Proof.
  induction l as [|y l IH]; intros Hin Hx; [destruct Hin|]. simpl.
  destruct Hin as [->|Hin].
  - rewrite Hx. now eexists.
  - destruct (f y); simpl; [|now eexists].
    destruct (IH Hin Hx) as [e' ->]. now eexists.
Qed.

(** ** The similarity scorer *)

Section ScorerFacts.
Variable E : Env.
Implicit Types (translations : dict (option ustring)) (word : ustring).

(** The items [get_similarity_scores] assigns. *)
Lemma scored_items_In translations word s :
  In (word, s)
     (flat_map (fun word =>
                  match get word translations with
                  | Some (Some translation) =>
                      [(word, similarity E word translation)]
                  | _ => []
                  end)
               (keys translations))
  <-> In word (keys translations)
      /\ exists translation,
          get word translations = Some (Some translation)
          /\ s = similarity E word translation.
Proof.
  rewrite in_flat_map. split.
  - intros (w & Hw & Hin).
    destruct (get w translations) as [[t|]|] eqn:G;
      [|destruct Hin|destruct Hin].
    destruct Hin as [Heq|[]]. inversion Heq; subst.
    split; [assumption|]. now exists t.
  - intros (Hw & t & G & ->). exists word. split; [assumption|].
    rewrite G. now left.
Qed.

Lemma scores_wf translations : wf (get_similarity_scores E translations).
Proof. apply dict_from_wf. Qed.

Lemma scores_get_inv translations word s :
  get word (get_similarity_scores E translations) = Some s ->
  exists translation,
    get word translations = Some (Some translation)
    /\ s = similarity E word translation.
Proof.
  intros H. apply assign_all_get_inv in H. destruct H as [H|H]; [|discriminate].
  apply scored_items_In in H. tauto.
Qed.

Lemma scores_get translations word translation :
  get word translations = Some (Some translation) ->
  get word (get_similarity_scores E translations)
  = Some (similarity E word translation).
Proof.
  intros G.
  assert (Hk : In word (keys translations)).
  { destruct (in_dec (list_eq_dec N.eq_dec) word (keys translations))
      as [H|H]; [assumption|].
    apply dict_get_None_iff in H. congruence. }
  unfold get_similarity_scores, dict_from.
  match goal with |- get _ (assign_all ?l _) = _ =>
    destruct (assign_all_get_In l (@nil (ustring * Q)) word) as (s & Hin & Hget)
  end.
  - apply in_map_iff. exists (word, similarity E word translation).
    split; [reflexivity|]. apply scored_items_In. split; [assumption|].
    now exists translation.
  - rewrite Hget. apply scored_items_In in Hin.
    destruct Hin as (_ & t & G' & ->). congruence.
Qed.

Lemma scores_get_None translations word :
  (forall translation, get word translations <> Some (Some translation)) ->
  get word (get_similarity_scores E translations) = None.
Proof.
  intros H. destruct (get word (get_similarity_scores E translations)) eqn:G;
    [|reflexivity].
  apply scores_get_inv in G. destruct G as (t & G & _). now apply H in G.
Qed.

Lemma similarity_bounds word translation :
  (0 <= similarity E word translation /\ similarity E word translation <= 1)%Q.
Proof. apply ratio_bounds. Qed.

Lemma similarity_1_iff word translation :
  (similarity E word translation == 1)%Q
  <-> normalized_word E word = normalized_translation E translation.
Proof. apply ratio_1_iff. Qed.

End ScorerFacts.

(** ** Valid translations *)

Lemma filter_keys_NoDup (V : Type) (p : ustring * V -> bool) (d : dict V) :
  wf d -> NoDup (List.map fst (filter p d)).
Proof.
  unfold wf, keys. induction d as [|[k v] d IH]; simpl; intros Hnd.
  - constructor.
  - inversion Hnd as [|? ? Hnin Hnd']; subst.
    destruct (p (k, v)); simpl; [|now apply IH].
    constructor; [|now apply IH].
    intros Hin. apply Hnin. apply in_map_iff in Hin.
    destruct Hin as ([k' v'] & Hk & Hin). simpl in Hk; subst k'.
    apply filter_In in Hin. apply in_map_iff. exists (k, v'). tauto.
Qed.

(** On a dictionary, the comprehension is a filter. *)
Lemma valid_translations_filter (translations : dict (option ustring)) :
  wf translations ->
  valid_translations translations
  = filter (fun kv => is_not_None (snd kv)) translations.
Proof.
  intros Hwf. unfold valid_translations, items.
  apply dict_from_wf_id. now apply filter_keys_NoDup.
Qed.

Lemma valid_translations_wf (translations : dict (option ustring)) :
  wf (valid_translations translations).
Proof. apply dict_from_wf. Qed.

Lemma valid_translations_get (translations : dict (option ustring)) word v :
  wf translations ->
  get word (valid_translations translations) = Some v ->
  exists translation,
    v = Some translation /\ get word translations = Some (Some translation).
Proof.
  intros Hwf G. rewrite valid_translations_filter in G by assumption.
  apply dict_get_Some_In, filter_In in G. destruct G as [Hin Hp].
  destruct v as [t|]; [|discriminate]. exists t. split; [reflexivity|].
  now apply dict_In_get_wf.
Qed.

Lemma valid_translations_get_Some (translations : dict (option ustring))
      word translation :
  wf translations ->
  get word translations = Some (Some translation) ->
  get word (valid_translations translations) = Some (Some translation).
Proof.
  intros Hwf G. rewrite valid_translations_filter by assumption.
  apply dict_In_get_wf.
  - now apply filter_keys_NoDup.
  - apply filter_In. split; [now apply dict_get_Some_In | reflexivity].
Qed.

(** ** The model on concrete inputs *)

(** ['  haus  120 '.split()] and ['a\r\nb\n\nc'.splitlines()]. *)
Example split_frequency_line :
  split (u "  haus  120 ") = [u "haus"; u "120"].
Proof. reflexivity. Qed.

Example split_blank_line : split (u "   ") = [].
Proof. reflexivity. Qed.

Example splitlines_mixed :
  splitlines ([97; 13; 10; 98; 10; 10; 99]%N) = [u "a"; u "b"; []; u "c"].
Proof. reflexivity. Qed.

Example splitlines_empty : splitlines [] = [].
Proof. reflexivity. Qed.

(** The two examples of the package's documentation of [distance] and
    [ratio]: the distance of the pair is 7 and its ratio 0.58333...,
    which is 14/24 and not (24 - 2 * 7) / 24. *)
Example ratio_documented_example :
  levenshtein_distance (u "Hello world!") (u "Holly grail!") = 7
  /\ (ratio (u "Hello world!") (u "Holly grail!") == 14 # 24)%Q
  /\ (levenshtein_ratio_formula (u "Hello world!") (u "Holly grail!")
      == 10 # 24)%Q.
Proof. repeat split. Qed.

Example ratio_documented_example_disjoint :
  (ratio (u "Brian") (u "Jesus") == 0)%Q.
Proof. reflexivity. Qed.

(** Both normalizations of ['Café'] are ['cafe']. *)
Example normalization_agrees_on_cafe :
  normalized_word Sample.env ([67; 97; 102; 233]%N) = u "cafe"
  /\ normalized_translation Sample.env ([67; 97; 102; 233]%N) = u "cafe".
Proof. split; reflexivity. Qed.

(** Ties keep the order of the mapping. *)
Example top_matches_ties :
  top_matches [(u "a", 1 # 2); (u "b", 2 # 4); (u "c", 3 # 4);
               (u "d", 1 # 2)]%Q 3
  = [(u "c", 3 # 4); (u "a", 1 # 2); (u "b", 2 # 4)]%Q.
Proof. reflexivity. Qed.

(** ** Stability of the sort *)

(** The items of one score keep, after sorting, the order they had. *)
Lemma insert_desc_stable (q : Q) x l :
  filter (fun y => Qeq_bool (snd y) q) (insert_desc x l)
  = filter (fun y => Qeq_bool (snd y) q) (x :: l).
Proof.
  induction l as [|y l IH]; [reflexivity|].
  cbn [insert_desc]. destruct (Qle_bool (snd y) (snd x)) eqn:E;
    [reflexivity|].
  cbn [filter]. rewrite IH. cbn [filter].
  destruct (Qeq_bool (snd y) q) eqn:Ey, (Qeq_bool (snd x) q) eqn:Ex;
    try reflexivity.
  apply Qeq_bool_iff in Ey, Ex.
  assert (Hle : (snd y <= snd x)%Q) by (rewrite Ey, Ex; apply Qle_refl).
  apply Qle_bool_iff in Hle. congruence.
Qed.

Lemma sorted_desc_stable (q : Q) l :
  filter (fun y => Qeq_bool (snd y) q) (sorted_desc l)
  = filter (fun y => Qeq_bool (snd y) q) l.
Proof.
  induction l as [|x l IH]; [reflexivity|].
  cbn [sorted_desc fold_right]. rewrite insert_desc_stable.
  cbn [filter]. fold (sorted_desc l). now rewrite IH.
Qed.

Lemma StronglySorted_app_inv (A : Type) (R : A -> A -> Prop) l1 :
  forall l2, StronglySorted R (l1 ++ l2) ->
             forall x y, In x l1 -> In y l2 -> R x y.
Proof.
  induction l1 as [|a l1 IH]; intros l2 Hs x y Hx Hy; [destruct Hx|].
  simpl in Hs. inversion Hs as [|? ? Hs' Hall]; subst.
  destruct Hx as [<-|Hx].
  - rewrite Forall_forall in Hall. apply Hall. apply in_or_app. now right.
  - eapply IH; eassumption.
Qed.

(** ** The two normalizations *)

Lemma unidecode_ascii (E : Env) (s : ustring) :
  Forall (fun c => (c < 128)%N) s -> unidecode E s = s.
Proof.
  induction 1 as [|c s Hc Hs IH]; [reflexivity|].
  unfold unidecode in *. cbn [flat_map]. rewrite IH.
  destruct (N.ltb_spec c 128); [reflexivity | lia].
Qed.

(** The two normalizations agree on an ASCII string whose lower-case
    form is ASCII. *)
Lemma normalizations_agree_ascii (E : Env) (s : ustring) :
  Forall (fun c => (c < 128)%N) s ->
  Forall (fun c => (c < 128)%N) (str_lower E s) ->
  normalized_word E s = normalized_translation E s.
Proof.
  intros Hs Hl. unfold normalized_word, normalized_translation.
  now rewrite (unidecode_ascii E Hs), (unidecode_ascii E Hl).
Qed.

(** They differ, and a string paired with itself scores below 1, as
    soon as the string is its own lower-case form while its
    transliteration is not. *)
Lemma similarity_same_string_below_one (E : Env) (s : ustring) :
  str_lower E s = s ->
  str_lower E (unidecode E s) <> unidecode E s ->
  normalized_word E s <> normalized_translation E s
  /\ ~ (similarity E s s == 1)%Q.
Proof.
  intros Hs Hu.
  assert (Hne : normalized_word E s <> normalized_translation E s).
  { unfold normalized_word, normalized_translation. rewrite Hs.
    intros H. apply Hu. now symmetry. }
  split; [exact Hne|]. intros H. now apply similarity_1_iff in H.
Qed.

(** ** The word source *)

Lemma get_words_Ok (E : Env) buffer_count i lang text :
  requests_get E i (frequency_url lang) = Ok text ->
  forallb has_token (consumed_lines buffer_count text) = true ->
  get_words E buffer_count i lang
  = Ok (List.map first_token (consumed_lines buffer_count text)).
Proof.
  intros Hget Hall. unfold get_words. rewrite Hget. simpl.
  apply map_result_Ok. intros line Hin.
  rewrite split_first_token.
  rewrite forallb_forall in Hall. now rewrite (Hall line Hin).
Qed.

Lemma get_words_Raise (E : Env) buffer_count i lang e :
  requests_get E i (frequency_url lang) = Raise e ->
  get_words E buffer_count i lang = Raise e.
Proof. intros Hget. unfold get_words. now rewrite Hget. Qed.

(** A line without a token among those read makes [get_words] raise. *)
Lemma get_words_blank_line (E : Env) buffer_count i lang text line :
  requests_get E i (frequency_url lang) = Ok text ->
  In line (consumed_lines buffer_count text) ->
  has_token line = false ->
  exists e, get_words E buffer_count i lang = Raise e.
Proof.
  intros Hget Hin Hblank. unfold get_words. rewrite Hget. simpl.
  apply (map_result_Raise _ _ line (e := IndexError)); [exact Hin|].
  rewrite split_first_token. now rewrite Hblank.
Qed.

(** ** A run of the script *)

Lemma translate_word_None learn2native i word :
  translate_word learn2native i word = None
  <-> lookup_fails learn2native i word = true.
Proof.
  unfold translate_word, lookup_fails.
  destruct (learn2native i word) as [[|first rest]|e]; simpl;
    split; congruence.
Qed.

Lemma calls_In (A : Type) (f : nat -> ustring -> A) words k v :
  forall i, In (k, v) (calls f i words) ->
            exists p1 p2, words = p1 ++ k :: p2 /\ v = f (i + length p1) k.
Proof.
  induction words as [|w ws IH]; intros i Hin; [destruct Hin|].
  destruct Hin as [Heq|Hin].
  - inversion Heq; subst. exists [], ws. simpl. now rewrite Nat.add_0_r.
  - destruct (IH _ Hin) as (p1 & p2 & -> & ->).
    exists (w :: p1), p2. simpl. split; [reflexivity|]. f_equal. lia.
Qed.

Lemma filter_all (A : Type) (p : A -> bool) (l : list A) :
  (forall x, In x l -> p x = true) -> filter p l = l.
Proof.
  induction l as [|x l IH]; intros H; simpl; [reflexivity|].
  rewrite (H x) by now left. f_equal. apply IH. intros; apply H. now right.
Qed.

(** What a completed run is made of. *)
Lemma run_inv (E : Env) lang_to_learn native_lang word_count r :
  run E lang_to_learn native_lang word_count = Ok r ->
  exists learn2native,
    Word2word E lang_to_learn native_lang = Ok learn2native
    /\ fetch_top_words E lang_to_learn fallback_lang (Some 100%Z)
       = Ok (run_fetched_words r)
    /\ run_translations r
       = assign_all (calls (translate_word learn2native) 0
                           (run_fetched_words r)) []
    /\ run_valid_translations r = valid_translations (run_translations r)
    /\ run_similarity_scores r
       = get_similarity_scores E (run_valid_translations r)
    /\ run_top_matches r = top_matches (run_similarity_scores r) word_count
    /\ run_selected_meanings r
       = get_meanings E (List.map fst (run_top_matches r))
                      lang_to_learn native_lang.
Proof.
  unfold run, get_translations.
  destruct (fetch_top_words E lang_to_learn fallback_lang (Some 100%Z))
    as [fetched|e]; simpl; [|discriminate].
  destruct (Word2word E lang_to_learn native_lang) as [learn2native|e];
    simpl; [|discriminate].
  intros [= <-]. exists learn2native. simpl.
  rewrite translations_loop_calls. repeat split; reflexivity.
Qed.

(** The ranked list holds items of the score mapping only. *)
Lemma top_matches_In (similarity_scores : dict Q) word_count x :
  In x (top_matches similarity_scores word_count) ->
  In x (items similarity_scores).
Proof.
  unfold top_matches, sorted_matches.
  destruct (slice_to_prefix (Some word_count)
                            (sorted_desc (items similarity_scores)))
    as [k ->].
  intros Hin. apply (Permutation_in _ (sorted_desc_perm _)).
  rewrite <- (firstn_skipn k). apply in_or_app. now left.
Qed.

Lemma top_matches_keys (similarity_scores : dict Q) word_count w :
  wf similarity_scores ->
  In w (List.map fst (top_matches similarity_scores word_count)) ->
  exists s, get w similarity_scores = Some s.
Proof.
  intros Hwf Hin. apply in_map_iff in Hin.
  destruct Hin as ([w' s] & Hw & Hin). simpl in Hw; subst w'.
  exists s. apply dict_In_get_wf; [assumption|].
  eapply top_matches_In; eassumption.
Qed.

Lemma top_matches_NoDup (similarity_scores : dict Q) word_count :
  wf similarity_scores ->
  NoDup (List.map fst (top_matches similarity_scores word_count)).
Proof.
  intros Hwf. unfold top_matches, sorted_matches.
  destruct (slice_to_prefix (Some word_count)
                            (sorted_desc (items similarity_scores)))
    as [k ->].
  rewrite <- firstn_map. apply NoDup_firstn.
  eapply Permutation_NoDup; [|exact Hwf].
  apply Permutation_map, Permutation_sym, sorted_desc_perm.
Qed.

(* ================================================================== *)
(** * The claims *)

(** ** C1: the formula of the score *)

(** C1, as stated, fails. For the pair ("haus", "house") the score is
    2/3, while the stated formula, on the Levenshtein distance 2, gives
    (4 + 5 - 2 * 2) / (4 + 5) = 5/9. *)
Lemma C1_counterexample :
  exists s,
    get (u "haus")
        (get_similarity_scores Sample.env [(u "haus", Some (u "house"))])
    = Some s
    /\ (s == 2 # 3)%Q
    /\ levenshtein_distance (normalized_word Sample.env (u "haus"))
                            (normalized_translation Sample.env (u "house")) = 2
    /\ (levenshtein_ratio_formula
          (normalized_word Sample.env (u "haus"))
          (normalized_translation Sample.env (u "house")) == 5 # 9)%Q
    /\ ~ (s == levenshtein_ratio_formula
                 (normalized_word Sample.env (u "haus"))
                 (normalized_translation Sample.env (u "house")))%Q.
Proof.
  eexists. split; [vm_compute; reflexivity|].
  repeat split; try reflexivity. vm_compute. discriminate.
Qed.

(** C1, amended. For every word with a present translation, the score
    is (len(a) + len(b) - d(a, b)) / (len(a) + len(b)), where [a] and
    [b] are the two normalized strings and [d] is the edit distance in
    which an insertion or a deletion costs 1 and a substitution costs 2;
    it is 1 when both strings are empty. *)
Theorem C1_score_is_indel_ratio
        (E : Env) (translations : dict (option ustring))
        (word translation : ustring) :
  get word translations = Some (Some translation) ->
  exists s,
    get word (get_similarity_scores E translations) = Some s
    /\ (s ==
        if Nat.eqb (length (normalized_word E word)
                    + length (normalized_translation E translation)) 0
        then 1
        else (Z.of_nat (length (normalized_word E word)
                        + length (normalized_translation E translation))
              - Z.of_nat (edit_distance 2 (normalized_word E word)
                            (normalized_translation E translation)))%Z
             # Pos.of_nat (length (normalized_word E word)
                           + length (normalized_translation E translation)))%Q.
Proof.
  intros G. exists (similarity E word translation).
  split; [apply scores_get; exact G|].
  unfold similarity.
  destruct (Nat.eqb_spec (length (normalized_word E word)
                          + length (normalized_translation E translation)) 0)
    as [E0|Hn].
  - now apply ratio_empty.
  - rewrite <- indel_distance_edit. now apply ratio_quotient.
Qed.

Lemma C1_score_is_indel_ratio_witness :
  get (u "haus") [(u "haus", Some (u "house"))] = Some (Some (u "house"))
  /\ exists s,
      get (u "haus")
          (get_similarity_scores Sample.env [(u "haus", Some (u "house"))])
      = Some s
      /\ (s == (9 - 3) # 9)%Q.
Proof.
  split; [reflexivity|].
  exact (@C1_score_is_indel_ratio Sample.env
           [(u "haus", Some (u "house"))] (u "haus") (u "house") eq_refl).
Defined.

(** ** C2: the ranked list *)

(** C2. For every score mapping and every requested count [N] (a
    count: not negative), the ranked output is sorted non-increasing by
    score, its length is the minimum of [N] and the number of scored
    pairs, it holds pairs of the mapping and no pair left out has a
    score above one that is kept, and when no more than [N] pairs exist
    it holds all of them. *)
Theorem C2_ranked_sorted_and_truncated
        (similarity_scores : dict Q) (N : Z) :
  (0 <= N)%Z ->
  StronglySorted desc (top_matches similarity_scores N)
  /\ length (top_matches similarity_scores N)
     = Nat.min (Z.to_nat N) (length (items similarity_scores))
  /\ (exists rest,
         Permutation (top_matches similarity_scores N ++ rest)
                     (items similarity_scores)
         /\ forall x y,
             In x (top_matches similarity_scores N) -> In y rest -> desc x y)
  /\ ((Z.of_nat (length (items similarity_scores)) <= N)%Z ->
      Permutation (top_matches similarity_scores N) (items similarity_scores)).
Proof.
  intros HN. unfold top_matches, sorted_matches.
  rewrite slice_to_nonneg by assumption.
  repeat split.
  - apply StronglySorted_firstn, sorted_desc_sorted.
  - now rewrite length_firstn, sorted_desc_length.
  - exists (skipn (Z.to_nat N) (sorted_desc (items similarity_scores))).
    split; [rewrite firstn_skipn; apply sorted_desc_perm|].
    apply StronglySorted_app_inv. rewrite firstn_skipn.
    apply sorted_desc_sorted.
  - intros Hle. rewrite firstn_all2; [apply sorted_desc_perm|].
    rewrite sorted_desc_length. lia.
Qed.

Lemma C2_ranked_sorted_and_truncated_witness :
  (0 <= 10)%Z
  /\ length (top_matches [(u "haus", 2 # 3); (u "auto", 2 # 7);
                          (u "buch", 1 # 4)]%Q 10) = 3.
Proof.
  split; [lia|].
  rewrite (proj1 (proj2 (@C2_ranked_sorted_and_truncated
                           [(u "haus", 2 # 3); (u "auto", 2 # 7);
                            (u "buch", 1 # 4)]%Q 10 ltac:(lia)))).
  reflexivity.
Defined.

(** ** C3: range of the score, and the score 1 *)

(** C3, at the input where the code departs from it.  The score is in
    [0, 1] for every pair ([similarity_bounds]) and is 1 exactly when
    the two strings handed to [ratio] are equal ([similarity_1_iff]);
    but these two strings are not the images of the word and of the
    translation under one normalization.  With the word U+5317 and the
    same U+5317 as its translation, any normalization gives equal
    normalized forms, and the score is 3/4, not 1. *)
Theorem C3_identical_pair_scores_below_one :
  get [0x5317%N]
      (get_similarity_scores Sample.env [([0x5317%N], Some [0x5317%N])])
  = Some (similarity Sample.env [0x5317%N] [0x5317%N])
  /\ (similarity Sample.env [0x5317%N] [0x5317%N] == 3 # 4)%Q
  /\ ~ (similarity Sample.env [0x5317%N] [0x5317%N] == 1)%Q
  /\ (forall normalize : ustring -> ustring,
         normalize [0x5317%N] = normalize [0x5317%N]).
Proof.
  repeat split; try reflexivity. vm_compute. discriminate.
Qed.

(** ** C4: one normalization for both strings *)

(** C4, at the input where the code departs from it.  The word is
    lower-cased and then transliterated, the translation is
    transliterated and then lower-cased; on U+5317, which [str.lower]
    leaves alone and [unidecode] turns into ["Bei "], the first gives
    ["Bei "] and the second ["bei "]. *)
Theorem C4_normalizations_differ :
  normalized_word Sample.env [0x5317%N] = u "Bei "
  /\ normalized_translation Sample.env [0x5317%N] = u "bei "
  /\ normalized_word Sample.env [0x5317%N]
     <> normalized_translation Sample.env [0x5317%N].
Proof.
  repeat split; try reflexivity. vm_compute. discriminate.
Qed.

(** ** C5: the translator *)

(** C5, as stated, fails: no lexicon exists for the pair (de, de), the
    call that loads it raises, and [get_translations] raises with it
    instead of returning a map of absences. *)
Lemma C5_counterexample :
  get_translations Sample.env [u "haus"; u "auto"] (u "de") (u "de")
  = Raise (OtherError (u "Language pair is not supported."))
  /\ ~ exists translations,
        get_translations Sample.env [u "haus"; u "auto"] (u "de") (u "de")
        = Ok translations.
Proof.
  split; [reflexivity|]. intros [translations H]. discriminate H.
Qed.

(** C5, amended. When the lexicon of the language pair loads, the
    translator returns a map whose keys are the words of the list; the
    entry of a word is decided by the lookup of that word alone (the
    last one, if the word is repeated): the first candidate when the
    lookup returns candidates, the absence marker when it raises or
    returns none. When the lexicon does not load, the exception reaches
    the caller. *)
Theorem C5_translator_isolates_lookup_failures
        (E : Env) (top_words : list ustring)
        (lang_to_learn native_lang : ustring) :
  match Word2word E lang_to_learn native_lang with
  | Ok learn2native =>
      exists translations,
        get_translations E top_words lang_to_learn native_lang
        = Ok translations
        /\ (forall w, In w (keys translations) <-> In w top_words)
        /\ (forall pre w post,
               top_words = pre ++ w :: post -> ~ In w post ->
               get w translations
               = Some match learn2native (length pre) w with
                      | Ok (first :: _) => Some first
                      | Ok [] => None
                      | Raise _ => None
                      end)
  | Raise e =>
      get_translations E top_words lang_to_learn native_lang = Raise e
  end.
Proof.
  unfold get_translations.
  destruct (Word2word E lang_to_learn native_lang) as [learn2native|e];
    simpl; [|reflexivity].
  eexists. split; [reflexivity|].
  rewrite translations_loop_calls. split.
  - intros w. apply loop_keys.
  - intros pre w post -> Hnin. rewrite loop_last by assumption.
    unfold translate_word.
    destruct (learn2native (length pre) w) as [[|first rest]|e]; reflexivity.
Qed.

Lemma C5_translator_isolates_lookup_failures_witness :
  exists translations,
    get_translations Sample.env [u "haus"; u "zug"; u "buch"] (u "de") (u "en")
    = Ok translations
    /\ get (u "zug") translations = Some None
    /\ get (u "buch") translations = Some (Some (u "book")).
Proof.
  destruct (C5_translator_isolates_lookup_failures
              Sample.env [u "haus"; u "zug"; u "buch"] (u "de") (u "en"))
    as (translations & Hrun & _ & Hlast).
  exists translations. split; [exact Hrun|]. split.
  - exact (Hlast [u "haus"] (u "zug") [u "buch"] eq_refl
                 ltac:(vm_compute; intuition discriminate)).
  - exact (Hlast [u "haus"; u "zug"] (u "buch") [] eq_refl
                 ltac:(vm_compute; intuition discriminate)).
Defined.

(** ** C6: the word source *)

(** C6, as stated, fails: a fetch that raises makes [fetch_top_words]
    raise, and so does an empty line in the response. *)
Lemma C6_counterexample :
  fetch_top_words Sample.env (u "fr") (u "en") (Some 100%Z)
  = Raise ConnectionError
  /\ fetch_top_words Sample.env_blank (u "de") (u "en") (Some 100%Z)
     = Raise IndexError.
Proof. split; reflexivity. Qed.

(** C6, amended. An exception raised by a fetch reaches the caller.
    When the primary fetch returns a text whose lines (those read) each
    hold a token, the word source returns their first tokens if there
    are any; if there are none it turns to the fallback language, and
    returns the first tokens of the fallback text under the same
    conditions, which is the empty sequence when that text has no line
    either. *)
Theorem C6_word_source_fallback
        (E : Env) (language fallback : ustring) (buffer_count : option Z) :
  (forall e,
      requests_get E 0 (frequency_url language) = Raise e ->
      fetch_top_words E language fallback buffer_count = Raise e)
  /\ (forall text,
         requests_get E 0 (frequency_url language) = Ok text ->
         forallb has_token (consumed_lines buffer_count text) = true ->
         match List.map first_token (consumed_lines buffer_count text) with
         | w :: ws =>
             fetch_top_words E language fallback buffer_count = Ok (w :: ws)
         | [] =>
             (forall e,
                 requests_get E 1 (frequency_url fallback) = Raise e ->
                 fetch_top_words E language fallback buffer_count = Raise e)
             /\ (forall text',
                    requests_get E 1 (frequency_url fallback) = Ok text' ->
                    forallb has_token (consumed_lines buffer_count text')
                    = true ->
                    fetch_top_words E language fallback buffer_count
                    = Ok (List.map first_token
                                   (consumed_lines buffer_count text')))
         end).
Proof.
  split.
  - intros e Hget. unfold fetch_top_words.
    now rewrite (get_words_Raise _ _ _ _ Hget).
  - intros text Hget Hall. unfold fetch_top_words.
    rewrite (get_words_Ok _ _ _ _ Hget Hall).
    destruct (List.map first_token (consumed_lines buffer_count text))
      as [|w ws]; simpl; [|reflexivity].
    split.
    + intros e Hget'. now rewrite (get_words_Raise _ _ _ _ Hget').
    + intros text' Hget' Hall'. rewrite (get_words_Ok _ _ _ _ Hget' Hall').
      simpl. now destruct (List.map first_token _).
Qed.

Lemma C6_word_source_fallback_witness :
  fetch_top_words Sample.env (u "xx") (u "de") (Some 100%Z)
  = Ok [u "haus"; u "zug"; u "buch"]
  /\ fetch_top_words Sample.env (u "xx") (u "xx") (Some 100%Z) = Ok []
  /\ fetch_top_words Sample.env (u "xx") (u "fr") (Some 100%Z)
     = Raise ConnectionError.
Proof.
  pose proof (proj2 (C6_word_source_fallback
                       Sample.env (u "xx") (u "de") (Some 100%Z))
                    [] eq_refl eq_refl) as H1.
  pose proof (proj2 (C6_word_source_fallback
                       Sample.env (u "xx") (u "xx") (Some 100%Z))
                    [] eq_refl eq_refl) as H2.
  pose proof (proj2 (C6_word_source_fallback
                       Sample.env (u "xx") (u "fr") (Some 100%Z))
                    [] eq_refl eq_refl) as H3.
  split; [|split].
  - exact (proj2 H1 Sample.frequency_de eq_refl eq_refl).
  - exact (proj2 H2 [] eq_refl eq_refl).
  - exact (proj1 H3 ConnectionError eq_refl).
Defined.

(** ** C7: the meaning enricher *)

(** C7, as stated, fails on the text of the sentinel: a word whose
    translation fails is given ["[No translation]"]. *)
Lemma C7_counterexample :
  get (u "auto")
      (get_meanings Sample.env [u "haus"; u "auto"] (u "de") (u "en"))
  = Some (u "[No translation]")
  /\ u "[No translation]" <> u "no translation available".
Proof.
  split; [reflexivity | vm_compute; discriminate].
Qed.

(** C7, amended. For every word list, the meaning map has one entry per
    word of the list, decided by the call for that word alone (the last
    one, if the word is repeated): the translated text when the call
    returns, the sentinel ["[No translation]"] when it raises.  The
    function itself never raises. *)
Theorem C7_meanings_sentinel
        (E : Env) (words : list ustring) (src_lang dest_lang : ustring) :
  (forall w, In w (keys (get_meanings E words src_lang dest_lang))
             <-> In w words)
  /\ (forall pre w post,
         words = pre ++ w :: post -> ~ In w post ->
         get w (get_meanings E words src_lang dest_lang)
         = Some match GoogleTranslator E (length pre) src_lang dest_lang w with
                | Ok translated => translated
                | Raise _ => u "[No translation]"
                end).
Proof.
  unfold get_meanings. rewrite meanings_loop_calls. split.
  - intros w. apply loop_keys.
  - intros pre w post -> Hnin. rewrite loop_last by assumption.
    destruct (GoogleTranslator E (length pre) src_lang dest_lang w);
      reflexivity.
Qed.

Lemma C7_meanings_sentinel_witness :
  get (u "auto")
      (get_meanings Sample.env [u "haus"; u "auto"; u "haus"] (u "de") (u "en"))
  = Some (u "[No translation]")
  /\ get (u "haus")
      (get_meanings Sample.env [u "haus"; u "auto"; u "haus"] (u "de") (u "en"))
     = Some (u "house").
Proof.
  split.
  - exact (proj2 (C7_meanings_sentinel Sample.env
                    [u "haus"; u "auto"; u "haus"] (u "de") (u "en"))
                 [u "haus"] (u "auto") [u "haus"] eq_refl
                 ltac:(vm_compute; intuition discriminate)).
  - exact (proj2 (C7_meanings_sentinel Sample.env
                    [u "haus"; u "auto"; u "haus"] (u "de") (u "en"))
                 [u "haus"; u "auto"] (u "haus") [] eq_refl
                 ltac:(vm_compute; intuition discriminate)).
Defined.

(** ** C8: words without a translation *)

(** C8, as stated, fails on the size of the translation map: with one
    failed lookup in a batch of three words the map returned by the
    translator has three entries, the failed word's being the absence
    marker. *)
Lemma C8_counterexample :
  exists translations,
    get_translations Sample.env [u "haus"; u "zug"; u "buch"] (u "de") (u "en")
    = Ok translations
    /\ lookup_fails Sample.lexicon 1 (u "zug") = true
    /\ get (u "zug") translations = Some None
    /\ length (items translations) = 3
    /\ length (items translations) <> 2.
Proof.
  eexists. split; [reflexivity|]. repeat split. vm_compute. discriminate.
Qed.

(** C8, amended. In a completed run, a word whose (last) bilingual
    lookup fails is recorded in the translation map with the absence
    marker and appears in no later structure: not in the valid
    translations, not in the score mapping (it has no score at all), not
    in the ranked list, not in the meaning map.  When the fetched words
    are distinct, the translation map has one entry per word (three for
    a batch of three), and when the failed lookup is the only one, the
    valid translations have one entry less (two for a batch of three). *)
Theorem C8_failed_lookup_excluded
        (E : Env) (lang_to_learn native_lang : ustring) (word_count : Z)
        (r : Run) (learn2native : nat -> ustring -> result (list ustring))
        (pre : list ustring) (w : ustring) (post : list ustring) :
  run E lang_to_learn native_lang word_count = Ok r ->
  Word2word E lang_to_learn native_lang = Ok learn2native ->
  run_fetched_words r = pre ++ w :: post ->
  ~ In w post ->
  lookup_fails learn2native (length pre) w = true ->
  get w (run_translations r) = Some None
  /\ get w (run_valid_translations r) = None
  /\ get w (run_similarity_scores r) = None
  /\ ~ In w (List.map fst (run_top_matches r))
  /\ get w (run_selected_meanings r) = None
  /\ (NoDup (run_fetched_words r) ->
      length (items (run_translations r)) = length (run_fetched_words r))
  /\ (NoDup (run_fetched_words r) ->
      (forall pre' w' post',
          run_fetched_words r = pre' ++ w' :: post' -> w' <> w ->
          lookup_fails learn2native (length pre') w' = false) ->
      length (items (run_valid_translations r))
      = length (run_fetched_words r) - 1).
Proof.
  intros Hrun HW Hws Hpost Hfail.
  pose proof Hrun as Hinv. apply run_inv in Hinv.
  destruct Hinv as (l2n & HW' & _ & Htr & Hvalid & Hscores & Htop & Hmean).
  rewrite HW in HW'. inversion HW'; subst l2n. clear HW'.
  apply translate_word_None in Hfail.
  assert (Hwf : wf (run_translations r)).
  { rewrite Htr. apply assign_all_wf, dict_wf_nil. }
  assert (H1 : get w (run_translations r) = Some None).
  { rewrite Htr, Hws, loop_last by assumption. now rewrite Hfail. }
  assert (H2 : get w (run_valid_translations r) = None).
  { destruct (get w (run_valid_translations r)) as [v|] eqn:G; [|reflexivity].
    rewrite Hvalid in G. apply valid_translations_get in G; [|exact Hwf].
    destruct G as (t & _ & G'). congruence. }
  assert (H3 : get w (run_similarity_scores r) = None).
  { rewrite Hscores. apply scores_get_None. intros t. congruence. }
  assert (H4 : ~ In w (List.map fst (run_top_matches r))).
  { rewrite Htop. intros Hin. apply top_matches_keys in Hin.
    - destruct Hin as [s Hs]. congruence.
    - rewrite Hscores. apply scores_wf. }
  repeat split; try assumption.
  - rewrite Hmean. apply dict_get_None_iff. unfold get_meanings.
    rewrite meanings_loop_calls, loop_keys. assumption.
  - intros Hnd. rewrite Htr. unfold items.
    rewrite assign_all_fresh by (simpl; now rewrite calls_keys).
    simpl. rewrite <- (calls_keys (translate_word learn2native)
                                   (run_fetched_words r) 0) at 2.
    now rewrite length_map.
  - intros Hnd Hothers. rewrite Hvalid. unfold items.
    rewrite valid_translations_filter by assumption.
    rewrite Htr, assign_all_fresh by (simpl; now rewrite calls_keys).
    simpl. rewrite Hws, calls_app. simpl. rewrite filter_app. simpl.
    rewrite Hfail. simpl.
    rewrite !filter_all.
    + rewrite !length_app. simpl.
      rewrite <- (calls_keys (translate_word learn2native) pre 0) at 3.
      rewrite <- (calls_keys (translate_word learn2native) post
                             (S (length pre))) at 2.
      rewrite !length_map. lia.
    + intros [k v] Hin. apply calls_In in Hin.
      destruct Hin as (p1 & p2 & -> & ->). cbn [snd].
      destruct (translate_word learn2native (S (length pre) + length p1) k)
        eqn:T; [reflexivity|].
      apply translate_word_None in T.
      assert (Ho : lookup_fails learn2native
                                (S (length pre) + length p1) k = false).
      { replace (S (length pre) + length p1)
          with (length (pre ++ w :: p1))
          by (rewrite length_app; simpl; lia).
        apply (Hothers _ k p2).
        - rewrite Hws, <- app_assoc. reflexivity.
        - intros ->. apply Hpost. apply in_or_app. right. now left. }
      congruence.
    + intros [k v] Hin. apply calls_In in Hin.
      destruct Hin as (p1 & p2 & -> & ->). cbn [snd Nat.add].
      destruct (translate_word learn2native (length p1) k)
        eqn:T; [reflexivity|].
      apply translate_word_None in T.
      assert (Ho : lookup_fails learn2native (length p1) k = false).
      { apply (Hothers _ k (p2 ++ w :: post)).
        - rewrite Hws, <- app_assoc. reflexivity.
        - intros ->. rewrite Hws in Hnd.
          rewrite <- app_assoc in Hnd. simpl in Hnd.
          apply NoDup_remove_2 in Hnd. apply Hnd.
          apply in_or_app. right. apply in_or_app. right. now left. }
      congruence.
Qed.

Lemma C8_failed_lookup_excluded_witness :
  exists r,
    run Sample.env (u "de") (u "en") 10 = Ok r
    /\ run_fetched_words r = [u "haus"; u "zug"; u "buch"]
    /\ lookup_fails Sample.lexicon 1 (u "zug") = true
    /\ get (u "zug") (run_translations r) = Some None
    /\ get (u "zug") (run_similarity_scores r) = None
    /\ ~ In (u "zug") (List.map fst (run_top_matches r))
    /\ get (u "zug") (run_selected_meanings r) = None
    /\ length (items (run_translations r)) = 3
    /\ length (items (run_valid_translations r)) = 2.
Proof.
  eexists. split; [reflexivity|]. split; [reflexivity|].
  split; [reflexivity|].
  match goal with |- get _ (run_translations ?r) = _ /\ _ =>
    pose proof (@C8_failed_lookup_excluded
                  Sample.env (u "de") (u "en") 10 r Sample.lexicon
                  [u "haus"] (u "zug") [u "buch"]
                  eq_refl eq_refl eq_refl
                  ltac:(vm_compute; intuition discriminate) eq_refl)
      as (H1 & _ & H3 & H4 & H5 & H6 & H7)
  end.
  split; [exact H1|]. split; [exact H3|]. split; [exact H4|].
  split; [exact H5|]. split.
  - apply H6. vm_compute.
    repeat constructor; simpl; intuition discriminate.
  - apply H7.
    + vm_compute. repeat constructor; simpl; intuition discriminate.
    + intros pre' w' post' Hsplit Hne. vm_compute in Hsplit.
      destruct pre' as [|a [|b [|c pre']]]; inversion Hsplit; subst;
        try reflexivity.
      * now contradiction Hne.
      * destruct pre'; discriminate.
Defined.

(** ** C9: the scenario *)

(** C9, as stated, fails on the third similarity: the score of
    ("buch", "book") is 2 * 1 / (4 + 4) = 0.25, which is not 0.29 to two
    decimals (nor within 0.03 of it). *)
Lemma C9_counterexample :
  exists s,
    get (u "buch")
        (get_similarity_scores
           Sample.env
           [(u "haus", Some (u "house")); (u "auto", Some (u "car"));
            (u "buch", Some (u "book"))])
    = Some s
    /\ (s == 1 # 4)%Q
    /\ ~ approx2 s (29 # 100)
    /\ ~ (Qabs (s - (29 # 100)) <= 3 # 100)%Q.
Proof.
  eexists. split; [vm_compute; reflexivity|].
  split; [reflexivity|]. split; vm_compute; intros H; now apply H.
Qed.

(** C9, amended. For the word list ["haus", "auto", "buch"] and a
    lexicon whose first candidates are "house", "car" and "book", the
    similarities are 2/3 (0.67 to two decimals) for ("haus", "house"),
    2/7 (0.29 to two decimals) for ("auto", "car") and 1/4 (exactly
    0.25) for ("buch", "book"); the top 1 is [("haus", 2/3)]. *)
Theorem C9_scenario
        (E : Env) (lang_to_learn native_lang : ustring)
        (learn2native : nat -> ustring -> result (list ustring)) :
  (forall s, Forall (fun c => (97 <= c <= 122)%N) s -> str_lower E s = s) ->
  Word2word E lang_to_learn native_lang = Ok learn2native ->
  (forall i, exists more, learn2native i (u "haus") = Ok (u "house" :: more)) ->
  (forall i, exists more, learn2native i (u "auto") = Ok (u "car" :: more)) ->
  (forall i, exists more, learn2native i (u "buch") = Ok (u "book" :: more)) ->
  exists translations s1 s2 s3,
    get_translations E [u "haus"; u "auto"; u "buch"]
                     lang_to_learn native_lang
    = Ok translations
    /\ items translations
       = [(u "haus", Some (u "house")); (u "auto", Some (u "car"));
          (u "buch", Some (u "book"))]
    /\ items (get_similarity_scores E (valid_translations translations))
       = [(u "haus", s1); (u "auto", s2); (u "buch", s3)]
    /\ (s1 == 2 # 3)%Q /\ approx2 s1 (67 # 100)
    /\ (s2 == 2 # 7)%Q /\ approx2 s2 (29 # 100)
    /\ (s3 == 1 # 4)%Q /\ (s3 == 25 # 100)%Q
    /\ top_matches (get_similarity_scores E (valid_translations translations))
                   1
       = [(u "haus", s1)].
Proof.
  intros Hlower HW Hhaus Hauto Hbuch.
  destruct (Hhaus 0) as [m0 H0], (Hauto 1) as [m1 H1], (Hbuch 2) as [m2 H2].
  assert (Hlow : forall s, forallb (fun c => (97 <=? c) && (c <=? 122))%N s
                           = true -> str_lower E s = s).
  { intros s Hs. apply Hlower. apply Forall_forall. intros c Hc.
    rewrite forallb_forall in Hs. specialize (Hs c Hc).
    apply andb_true_iff in Hs. destruct Hs as [Ha Hb].
    apply N.leb_le in Ha, Hb. lia. }
  assert (S1 : similarity E (u "haus") (u "house")
               = ratio (u "haus") (u "house")).
  { unfold similarity, normalized_word, normalized_translation.
    rewrite (Hlow (u "haus") eq_refl).
    change (unidecode E (u "house")) with (u "house").
    now rewrite (Hlow (u "house") eq_refl). }
  assert (S2 : similarity E (u "auto") (u "car")
               = ratio (u "auto") (u "car")).
  { unfold similarity, normalized_word, normalized_translation.
    rewrite (Hlow (u "auto") eq_refl).
    change (unidecode E (u "car")) with (u "car").
    now rewrite (Hlow (u "car") eq_refl). }
  assert (S3 : similarity E (u "buch") (u "book")
               = ratio (u "buch") (u "book")).
  { unfold similarity, normalized_word, normalized_translation.
    rewrite (Hlow (u "buch") eq_refl).
    change (unidecode E (u "book")) with (u "book").
    now rewrite (Hlow (u "book") eq_refl). }
  exists [(u "haus", Some (u "house")); (u "auto", Some (u "car"));
          (u "buch", Some (u "book"))],
    (similarity E (u "haus") (u "house")),
    (similarity E (u "auto") (u "car")),
    (similarity E (u "buch") (u "book")).
  split.
  { unfold get_translations. rewrite HW. cbn [bind translations_loop].
    unfold translate_word. rewrite H0, H1, H2. reflexivity. }
  split; [reflexivity|].
  split; [reflexivity|].
  assert (Htop :
            top_matches
              [(u "haus", ratio (u "haus") (u "house"));
               (u "auto", ratio (u "auto") (u "car"));
               (u "buch", ratio (u "buch") (u "book"))] 1
            = [(u "haus", ratio (u "haus") (u "house"))])
    by reflexivity.
  change (get_similarity_scores E (valid_translations
            [(u "haus", Some (u "house")); (u "auto", Some (u "car"));
             (u "buch", Some (u "book"))]))
    with [(u "haus", similarity E (u "haus") (u "house"));
          (u "auto", similarity E (u "auto") (u "car"));
          (u "buch", similarity E (u "buch") (u "book"))].
  rewrite S1, S2, S3.
  repeat split; try reflexivity; try exact Htop;
    vm_compute; discriminate.
Qed.

Lemma C9_scenario_witness :
  exists translations s1 s2 s3,
    get_translations Sample.env [u "haus"; u "auto"; u "buch"]
                     (u "de") (u "en")
    = Ok translations
    /\ items translations
       = [(u "haus", Some (u "house")); (u "auto", Some (u "car"));
          (u "buch", Some (u "book"))]
    /\ items (get_similarity_scores Sample.env
                                    (valid_translations translations))
       = [(u "haus", s1); (u "auto", s2); (u "buch", s3)]
    /\ (s1 == 2 # 3)%Q /\ approx2 s1 (67 # 100)
    /\ (s2 == 2 # 7)%Q /\ approx2 s2 (29 # 100)
    /\ (s3 == 1 # 4)%Q /\ (s3 == 25 # 100)%Q
    /\ top_matches (get_similarity_scores Sample.env
                                          (valid_translations translations))
                   1
       = [(u "haus", s1)].
Proof.
  apply (@C9_scenario Sample.env (u "de") (u "en") Sample.lexicon).
  - intros s Hs. unfold Sample.env, str_lower, Sample.ascii_lower.
    induction Hs as [|c s Hc Hs IH]; simpl; [reflexivity|].
    rewrite IH.
    destruct (N.leb_spec 65 c), (N.leb_spec c 90); simpl;
      try reflexivity; lia.
  - reflexivity.
  - intros i. eexists. reflexivity.
  - intros i. eexists. reflexivity.
  - intros i. eexists. reflexivity.
Defined.

(** ** C10: one entry per word *)

(** C10. Whatever the word list, repeated words included, the
    translation map, the score mapping and the ranked list hold each
    word at most once; every word of the list has its entry in the
    translation map, and that entry is the result of the last lookup of
    the word. *)
Theorem C10_one_entry_per_word
        (E : Env) (top_words : list ustring)
        (lang_to_learn native_lang : ustring)
        (translations : dict (option ustring)) (word_count : Z) :
  get_translations E top_words lang_to_learn native_lang = Ok translations ->
  NoDup (keys translations)
  /\ NoDup (keys (get_similarity_scores E (valid_translations translations)))
  /\ NoDup (List.map fst
              (top_matches
                 (get_similarity_scores E (valid_translations translations))
                 word_count))
  /\ (forall w, In w top_words -> In w (keys translations))
  /\ (forall learn2native pre w post,
         Word2word E lang_to_learn native_lang = Ok learn2native ->
         top_words = pre ++ w :: post -> ~ In w post ->
         get w translations
         = Some match learn2native (length pre) w with
                | Ok (first :: _) => Some first
                | Ok [] => None
                | Raise _ => None
                end).
Proof.
  unfold get_translations.
  destruct (Word2word E lang_to_learn native_lang) as [l2n|e]; simpl;
    [|discriminate].
  intros [= <-]. rewrite translations_loop_calls.
  split; [apply assign_all_wf, dict_wf_nil|].
  split; [apply scores_wf|].
  split; [apply top_matches_NoDup, scores_wf|].
  split; [intros w; apply loop_keys|].
  intros learn2native pre w post [= <-] -> Hnin.
  rewrite loop_last by assumption. unfold translate_word.
  destruct (l2n (length pre) w) as [[|first rest]|e]; reflexivity.
Qed.

Lemma C10_one_entry_per_word_witness :
  exists translations,
    get_translations Sample.env_by_call [u "haus"; u "auto"; u "haus"]
                     (u "de") (u "en")
    = Ok translations
    /\ NoDup (keys translations)
    /\ get (u "haus") translations = Some (Some (u "house")).
Proof.
  eexists. split; [reflexivity|].
  match goal with |- NoDup (keys ?t) /\ _ =>
    pose proof (@C10_one_entry_per_word
                  Sample.env_by_call [u "haus"; u "auto"; u "haus"]
                  (u "de") (u "en") t 10 eq_refl)
      as (H1 & _ & _ & _ & H5)
  end.
  split; [exact H1|].
  exact (H5 Sample.lexicon_by_call [u "haus"; u "auto"] (u "haus") []
            eq_refl eq_refl ltac:(simpl; tauto)).
Defined.

(* ================================================================== *)
(** * Further properties of the pipeline *)

(** ** The word source, read backwards *)



Lemma map_result_inv (A B : Type) (f : A -> result B) l :
  forall ys, map_result f l = Ok ys -> Forall2 (fun x y => f x = Ok y) l ys.
Proof.
  induction l as [|x l IH]; simpl; intros ys H.
  - inversion H. constructor.
  - destruct (f x) as [y|e] eqn:Fx; simpl in H; [|discriminate].
    destruct (map_result f l) as [ys'|e]; simpl in H; [|discriminate].
    inversion H; subst. constructor; [assumption | now apply IH].
Qed.

Lemma map_result_nonempty (A B : Type) (f : A -> result B) x l :
  map_result f (x :: l) <> Ok [].
Proof.
  simpl. destruct (f x); simpl; [|discriminate].
  destruct (map_result f l); simpl; discriminate.
Qed.

(** What [get_words] returns is read off the response. *)
Lemma get_words_inv (E : Env) buffer_count i lang ws :
  get_words E buffer_count i lang = Ok ws ->
  exists text,
    requests_get E i (frequency_url lang) = Ok text
    /\ forallb has_token (consumed_lines buffer_count text) = true
    /\ ws = List.map first_token (consumed_lines buffer_count text).
Proof.
  unfold get_words.
  destruct (requests_get E i (frequency_url lang)) as [text|e];
    simpl; [|discriminate].
  intros H. exists text. split; [reflexivity|].
  apply map_result_inv in H. fold (consumed_lines buffer_count text) in H.
  induction H as [|line w lines ws Hline Hrest IH]; [now split|].
  rewrite split_first_token in Hline.
  destruct (has_token line) eqn:Ht; [|discriminate].
  inversion Hline; subst. destruct IH as [IH1 IH2]. simpl.
  rewrite Ht, IH1, <- IH2. now split.
Qed.

Lemma fetch_top_words_inv (E : Env) language fallback buffer_count ws :
  fetch_top_words E language fallback buffer_count = Ok ws ->
  (ws <> [] /\ get_words E buffer_count 0 language = Ok ws)
  \/ (get_words E buffer_count 0 language = Ok []
      /\ get_words E buffer_count 1 fallback = Ok ws).
Proof.
  unfold fetch_top_words.
  destruct (get_words E buffer_count 0 language) as [[|w ws0]|e];
    simpl; [| |discriminate].
  - destruct (get_words E buffer_count 1 fallback) as [ws1|e];
      simpl; [|discriminate].
    intros H. right. split; [reflexivity|].
    destruct ws1; simpl in H; congruence.
  - intros H. inversion H; subst. left. split; [discriminate | reflexivity].
Qed.

Lemma consumed_lines_length (n : Z) text :
  (0 <= n)%Z -> (Z.of_nat (length (consumed_lines (Some n) text)) <= n)%Z.
Proof.
  intros Hn. unfold consumed_lines. rewrite slice_to_nonneg by assumption.
  rewrite length_firstn. lia.
Qed.

Lemma splitlines_aux_nil s : forall cur,
    splitlines_aux cur s = [] -> cur = [] /\ s = [].
Proof.
  induction s as [|c s IH]; intros cur H; simpl in H.
  - destruct cur; [now split | discriminate].
  - destruct (islinebreak c).
    + destruct s as [|d s']; [discriminate|].
      destruct ((c =? 13)%N && (d =? 10)%N); discriminate.
    + apply IH in H. destruct H as [H _]. discriminate.
Qed.

(** Only the empty text has no line. *)
Lemma splitlines_nil s : splitlines s = [] <-> s = [].
Proof.
  split; [|now intros ->].
  intros H. now apply splitlines_aux_nil in H.
Qed.



(** X2. The fallback is consulted only when the primary response is the
    empty text: when the primary response has any character (and
    [buffer_count] is absent or positive), the word source does what
    [get_words] does on that response alone, and never returns the
    empty list; the text of an error page is read as a word list. *)
Theorem X2_fallback_only_on_empty_response
        (E : Env) (language fallback : ustring) (buffer_count : option Z)
        (text : ustring) :
  requests_get E 0 (frequency_url language) = Ok text ->
  text <> [] ->
  (buffer_count = None \/ exists n, buffer_count = Some n /\ (0 < n)%Z) ->
  fetch_top_words E language fallback buffer_count
  = get_words E buffer_count 0 language
  /\ fetch_top_words E language fallback buffer_count <> Ok [].
Proof.
  intros Hget Htext Hcount.
  assert (Hlines : exists line lines,
             consumed_lines buffer_count text = line :: lines).
  { unfold consumed_lines.
    destruct (splitlines text) as [|line lines] eqn:S.
    - apply splitlines_nil in S. contradiction.
    - destruct Hcount as [->|(n & -> & Hn)]; simpl.
      + now exists line, lines.
      + destruct (Z.ltb_spec n 0); [lia|].
        destruct (Z.to_nat n) as [|k] eqn:K; [lia|].
        simpl. now eexists _, _. }
  destruct Hlines as (line & lines & Hlines).
  assert (Hne : get_words E buffer_count 0 language <> Ok []).
  { unfold get_words. rewrite Hget. simpl.
    fold (consumed_lines buffer_count text). rewrite Hlines.
    apply map_result_nonempty. }
  unfold fetch_top_words.
  destruct (get_words E buffer_count 0 language) as [[|w ws0]|e]; simpl.
  - now contradiction Hne.
  - split; [reflexivity | discriminate].
  - split; [reflexivity | discriminate].
Qed.

Lemma X2_fallback_only_on_empty_response_witness :
  fetch_top_words SampleNotFound.env (u "xx") (u "en") (Some 100%Z)
  = Ok [u "404:"].
Proof.
  rewrite (proj1 (@X2_fallback_only_on_empty_response
                    SampleNotFound.env (u "xx") (u "en") (Some 100%Z)
                    (u "404: Not Found") eq_refl
                    ltac:(discriminate)
                    (or_intror (ex_intro _ 100%Z (conj eq_refl eq_refl))))).
  reflexivity.
Defined.

Lemma app_eq_length_inv (A : Type) (a b x y : list A) :
  length a = length b -> a ++ x = b ++ y -> a = b /\ x = y.
Proof.
  revert b. induction a as [|c a IH]; intros [|d b] Hlen H;
    simpl in *; try discriminate.
  - now split.
  - inversion H; subst. destruct (IH b) as [-> ->]; [lia | assumption |].
    now split.
Qed.

(** X3. Two language codes are fetched from the same address only when
    they are the same code. *)
Theorem X3_frequency_url_injective (lang1 lang2 : ustring) :
  frequency_url lang1 = frequency_url lang2 -> lang1 = lang2.
Proof.
  unfold frequency_url. intros H.
  apply app_inv_head in H. apply app_inv_head in H.
  assert (Hlen : length lang1 = length lang2).
  { apply (f_equal (@length N)) in H. rewrite !length_app in H. lia. }
  now destruct (app_eq_length_inv _ _ _ _ Hlen H).
Qed.

Lemma X3_frequency_url_injective_witness :
  frequency_url (u "de") = frequency_url (u "de") /\ u "de" = u "de".
Proof.
  split; [reflexivity|].
  exact (@X3_frequency_url_injective (u "de") (u "de") eq_refl).
Defined.

(** ** The order of the translation map *)

Lemma filter_filter (A : Type) (f g : A -> bool) (l : list A) :
  filter f (filter g l) = filter (fun x => g x && f x) l.
Proof.
  induction l as [|x l IH]; [reflexivity|]. simpl.
  destruct (g x); simpl; [destruct (f x)|]; now rewrite IH.
Qed.

Lemma mem_keys (V : Type) (k : ustring) (d : dict V) :
  mem k d = existsb (PyStr.eqb k) (keys d).
Proof.
  unfold mem, keys. induction d as [|[k' v'] d IH]; simpl; [reflexivity|].
  destruct (PyStr.eqb k k'); [reflexivity | exact IH].
Qed.

(** The keys after a sequence of assignments: the keys there were, then
    the new ones at their first assignment. *)
Lemma assign_all_keys_order (V : Type) (l : list (ustring * V)) :
  forall acc : dict V,
    keys (assign_all l acc)
    = keys acc
      ++ filter (fun k => negb (existsb (PyStr.eqb k) (keys acc)))
                (dedup_first (List.map fst l)).
Proof.
  induction l as [|[k v] l IH]; intros acc.
  - simpl. now rewrite app_nil_r.
  - rewrite assign_all_cons, IH, dict_keys_set, mem_keys.
    cbn [List.map fst dedup_first filter].
    destruct (existsb (PyStr.eqb k) (keys acc)) eqn:M; cbn [negb].
    + f_equal. rewrite filter_filter. apply filter_ext_in. intros y _.
      destruct (ustring_eqb_spec y k) as [->|Hne]; simpl.
      * now rewrite M.
      * reflexivity.
    + rewrite <- app_assoc. cbn [app]. do 2 f_equal.
      rewrite filter_filter. apply filter_ext. intros y.
      rewrite existsb_app. simpl. rewrite orb_false_r, negb_orb.
      now rewrite andb_comm.
Qed.

Lemma dedup_first_NoDup_id (l : list ustring) :
  NoDup l -> dedup_first l = l.
Proof.
  induction 1 as [|x l Hnin Hnd IH]; [reflexivity|]. simpl. rewrite IH.
  f_equal. apply filter_all. intros y Hy.
  destruct (ustring_eqb_spec y x) as [->|_]; [contradiction | reflexivity].
Qed.

(** X4. The translation map lists the words in the order of their first
    occurrence in the word list; when the words are distinct its items
    are, in the order of the list, the words with the results of their
    lookups. *)
Theorem X4_translation_map_order
        (E : Env) (top_words : list ustring)
        (lang_to_learn native_lang : ustring)
        (translations : dict (option ustring)) :
  get_translations E top_words lang_to_learn native_lang = Ok translations ->
  keys translations = dedup_first top_words
  /\ (NoDup top_words ->
      forall learn2native,
        Word2word E lang_to_learn native_lang = Ok learn2native ->
        items translations
        = calls (translate_word learn2native) 0 top_words).
Proof.
  unfold get_translations.
  destruct (Word2word E lang_to_learn native_lang) as [l2n|e]; simpl;
    [|discriminate].
  intros [= <-]. rewrite translations_loop_calls. split.
  - rewrite assign_all_keys_order, calls_keys. simpl.
    apply filter_all. reflexivity.
  - intros Hnd learn2native [= <-]. unfold items.
    apply assign_all_fresh. simpl. now rewrite calls_keys.
Qed.

Lemma X4_translation_map_order_witness :
  exists translations,
    get_translations Sample.env [u "haus"; u "zug"; u "haus"; u "buch"]
                     (u "de") (u "en") = Ok translations
    /\ keys translations = [u "haus"; u "zug"; u "buch"].
Proof.
  eexists. split; [reflexivity|].
  match goal with |- keys ?t = _ =>
    rewrite (proj1 (@X4_translation_map_order
                      Sample.env [u "haus"; u "zug"; u "haus"; u "buch"]
                      (u "de") (u "en") t eq_refl))
  end.
  reflexivity.
Defined.

(** ** The score mapping *)

(** The items the scorer assigns have the keys with a translation, in
    the order of the keys. *)
Lemma scored_items_keys (E : Env) (translations : dict (option ustring))
      (ks : list ustring) :
  List.map fst
    (flat_map (fun word =>
                 match get word translations with
                 | Some (Some translation) =>
                     [(word, similarity E word translation)]
                 | _ => []
                 end) ks)
  = filter (has_translation translations) ks.
Proof.
  induction ks as [|k ks IH]; [reflexivity|]. simpl.
  rewrite map_app, IH. unfold has_translation.
  destruct (get k translations) as [[t|]|]; reflexivity.
Qed.

Lemma filter_NoDup (A : Type) (p : A -> bool) (l : list A) :
  NoDup l -> NoDup (filter p l).
Proof.
  induction 1 as [|x l Hnin Hnd IH]; simpl; [constructor|].
  destruct (p x); [|assumption]. constructor; [|assumption].
  intros Hin. apply filter_In in Hin. tauto.
Qed.

Lemma scores_items (E : Env) (translations : dict (option ustring)) :
  wf translations ->
  items (get_similarity_scores E translations)
  = flat_map (fun word =>
                match get word translations with
                | Some (Some translation) =>
                    [(word, similarity E word translation)]
                | _ => []
                end) (keys translations).
Proof.
  intros Hwf. unfold items, get_similarity_scores.
  apply dict_from_wf_id. rewrite scored_items_keys.
  now apply filter_NoDup.
Qed.

(** X5. The score mapping lists exactly the words that have a
    translation, in the order of the translation map, each with the
    similarity of the word and its translation. *)
Theorem X5_scores_follow_translation_map
        (E : Env) (translations : dict (option ustring)) :
  wf translations ->
  keys (get_similarity_scores E translations)
  = filter (has_translation translations) (keys translations)
  /\ (forall word s,
         In (word, s) (items (get_similarity_scores E translations)) <->
         exists translation,
           get word translations = Some (Some translation)
           /\ s = similarity E word translation).
Proof.
  intros Hwf. split.
  - unfold keys at 1.
    change (List.map fst (items (get_similarity_scores E translations))
            = filter (has_translation translations) (keys translations)).
    rewrite scores_items by assumption. apply scored_items_keys.
  - intros word s. rewrite scores_items by assumption.
    rewrite scored_items_In. split; [tauto|].
    intros (t & G & Hs). split; [|now exists t].
    destruct (in_dec (list_eq_dec N.eq_dec) word (keys translations))
      as [H|H]; [assumption|].
    apply dict_get_None_iff in H. congruence.
Qed.

Lemma X5_scores_follow_translation_map_witness :
  keys (get_similarity_scores
          Sample.env
          [(u "haus", Some (u "house")); (u "zug", None);
           (u "buch", Some (u "book"))])
  = [u "haus"; u "buch"].
Proof.
  rewrite (proj1 (@X5_scores_follow_translation_map
                    Sample.env
                    [(u "haus", Some (u "house")); (u "zug", None);
                     (u "buch", Some (u "book"))]
                    ltac:(vm_compute;
                          repeat constructor; simpl; intuition discriminate))).
  reflexivity.
Defined.

(** The scores of the filtered map are the scores of the map. *)
Lemma scores_prefilter
        (E : Env) (translations : dict (option ustring)) :
  wf translations ->
  get_similarity_scores E (valid_translations translations)
  = get_similarity_scores E translations.
Proof.
  intros Hwf. unfold get_similarity_scores. f_equal.
  replace (keys (valid_translations translations))
    with (keys (filter (fun kv : ustring * option ustring =>
                          is_not_None (snd kv)) translations))
    by (now rewrite valid_translations_filter).
  assert (Hgen : forall l : dict (option ustring),
             (forall k v, In (k, v) l -> get k translations = Some v) ->
             flat_map
               (fun word =>
                  match get word (valid_translations translations) with
                  | Some (Some translation) =>
                      [(word, similarity E word translation)]
                  | _ => []
                  end)
               (keys (filter (fun kv => is_not_None (snd kv)) l))
             = flat_map
                 (fun word =>
                    match get word translations with
                    | Some (Some translation) =>
                        [(word, similarity E word translation)]
                    | _ => []
                    end)
                 (keys l)).
  { induction l as [|[k v] l IH]; intros Hl; [reflexivity|].
    assert (Hk : get k translations = Some v) by (apply Hl; now left).
    assert (IH' := IH (fun k' v' H => Hl k' v' (or_intror H))).
    destruct v as [t|]; cbn [filter snd is_not_None keys List.map fst flat_map].
    - fold (keys (filter (fun kv => is_not_None (snd kv)) l)).
      fold (keys l). rewrite IH'.
      rewrite (valid_translations_get_Some _ Hwf Hk), Hk. reflexivity.
    - fold (keys (filter (fun kv => is_not_None (snd kv)) l)).
      fold (keys l). rewrite IH', Hk. reflexivity. }
  apply Hgen. intros k v Hin. now apply dict_In_get_wf.
Qed.

(** X6. Filtering the translation map before scoring changes nothing:
    the scorer drops the absent translations itself. *)
Theorem X6_prefilter_is_redundant
        (E : Env) (translations : dict (option ustring)) :
  wf translations ->
  get_similarity_scores E (valid_translations translations)
  = get_similarity_scores E translations.
Proof.
  intros Hwf. now apply scores_prefilter.
Qed.

Lemma X6_prefilter_is_redundant_witness :
  get_similarity_scores
    Sample.env
    (valid_translations [(u "haus", Some (u "house")); (u "zug", None)])
  = get_similarity_scores
      Sample.env [(u "haus", Some (u "house")); (u "zug", None)].
Proof.
  apply X6_prefilter_is_redundant.
  vm_compute. repeat constructor; simpl; intuition discriminate.
Defined.

(** ** Ties in the ranked list *)

Lemma before_cons (A : Type) (x y a : A) l :
  before x y l -> before x y (a :: l).
Proof.
  intros (l1 & l2 & l3 & ->). now exists (a :: l1), l2, l3.
Qed.

Lemma before_head (A : Type) (a y : A) l : In y l -> before a y (a :: l).
Proof.
  intros Hin. apply in_split in Hin. destruct Hin as (l2 & l3 & ->).
  now exists [], l2, l3.
Qed.

Lemma before_cons_inv (A : Type) (x y a : A) l :
  before x y (a :: l) -> (x = a /\ In y l) \/ before x y l.
Proof.
  intros (l1 & l2 & l3 & H). destruct l1 as [|b l1]; simpl in H.
  - inversion H; subst. left. split; [reflexivity|].
    apply in_or_app. right. now left.
  - inversion H; subst. right. now exists l1, l2, l3.
Qed.

Lemma before_app_l (A : Type) (x y : A) l l' :
  before x y l -> before x y (l ++ l').
Proof.
  intros (l1 & l2 & l3 & ->). exists l1, l2, (l3 ++ l').
  rewrite <- !app_assoc. simpl. now rewrite <- app_assoc.
Qed.

Lemma before_map (A B : Type) (f : A -> B) (x y : A) l :
  before x y l -> before (f x) (f y) (List.map f l).
Proof.
  intros (l1 & l2 & l3 & ->).
  exists (List.map f l1), (List.map f l2), (List.map f l3).
  rewrite !map_app. simpl. now rewrite map_app.
Qed.

Lemma before_filter_intro (A : Type) (p : A -> bool) (x y : A) l :
  before x y l -> p x = true -> p y = true -> before x y (filter p l).
Proof.
  intros (l1 & l2 & l3 & ->) Hx Hy.
  exists (filter p l1), (filter p l2), (filter p l3).
  rewrite !filter_app. simpl. rewrite Hx, filter_app. simpl.
  now rewrite Hy.
Qed.

(** An order of appearance in the image of a filtered list is an order
    of appearance in the image of the list. *)
Lemma before_map_filter (A B : Type) (f : A -> B) (p : A -> bool)
      (a b : B) l :
  before a b (List.map f (filter p l)) -> before a b (List.map f l).
Proof.
  induction l as [|c l IH]; simpl; [trivial|].
  destruct (p c); simpl; intros H.
  - apply before_cons_inv in H. destruct H as [[-> Hin]|H].
    + apply before_head. apply in_map_iff in Hin.
      destruct Hin as (z & <- & Hz). apply filter_In in Hz.
      apply in_map. tauto.
    + apply before_cons. now apply IH.
  - apply before_cons. now apply IH.
Qed.

Lemma before_filter (A : Type) (p : A -> bool) (x y : A) l :
  before x y (filter p l) -> before x y l.
Proof.
  intros H. rewrite <- (map_id l). apply before_map_filter with (p := p).
  now rewrite map_id.
Qed.

Lemma before_dedup_first (x y : ustring) l :
  before x y (dedup_first l) -> before x y l.
Proof.
  induction l as [|a l IH]; simpl; [trivial|]. intros H.
  apply before_cons_inv in H. destruct H as [[-> Hin]|H].
  - apply before_head. apply filter_In in Hin. destruct Hin as [Hin _].
    clear IH. induction l as [|b l IHl]; [destruct Hin|].
    simpl in Hin. destruct Hin as [->|Hin]; [now left|].
    right. apply IHl. apply filter_In in Hin. tauto.
  - apply before_cons. apply IH. now apply before_filter in H.
Qed.

(** X7. Ties in the ranked list are broken by frequency rank: when two
    items of the ranked list have the same score, the word of the one
    that comes first occurs earlier in the fetched word list. *)
Theorem X7_ties_follow_frequency_rank
        (E : Env) (lang_to_learn native_lang : ustring) (word_count : Z)
        (r : Run) (x y : ustring * Q) :
  run E lang_to_learn native_lang word_count = Ok r ->
  before x y (run_top_matches r) ->
  (snd x == snd y)%Q ->
  before (fst x) (fst y) (run_fetched_words r).
Proof.
  intros Hrun Hbefore Htie.
  apply run_inv in Hrun.
  destruct Hrun as (l2n & _ & _ & Htr & Hvalid & Hscores & Htop & _).
  assert (Hwf : wf (run_translations r)).
  { rewrite Htr. apply assign_all_wf, dict_wf_nil. }
  rewrite Htop in Hbefore. unfold top_matches, sorted_matches in Hbefore.
  destruct (slice_to_prefix (Some word_count)
              (sorted_desc (items (run_similarity_scores r))))
    as [k Hk].
  rewrite Hk in Hbefore.
  apply before_app_l
    with (l' := skipn k (sorted_desc (items (run_similarity_scores r))))
    in Hbefore.
  rewrite firstn_skipn in Hbefore.
  apply before_filter_intro
    with (p := fun z => Qeq_bool (snd z) (snd x)) in Hbefore.
  2: { apply Qeq_bool_iff. reflexivity. }
  2: { apply Qeq_bool_iff. now symmetry. }
  rewrite sorted_desc_stable in Hbefore. apply before_filter in Hbefore.
  apply before_map with (f := fst) in Hbefore.
  rewrite Hscores, scores_items in Hbefore by (rewrite Hvalid;
                                                 apply valid_translations_wf).
  rewrite scored_items_keys in Hbefore. apply before_filter in Hbefore.
  rewrite Hvalid, (valid_translations_filter Hwf) in Hbefore.
  apply before_map_filter in Hbefore.
  fold (keys (run_translations r)) in Hbefore.
  rewrite Htr, assign_all_keys_order, calls_keys in Hbefore.
  simpl in Hbefore. rewrite filter_all in Hbefore by reflexivity.
  now apply before_dedup_first.
Qed.

Lemma X7_ties_follow_frequency_rank_witness :
  exists r,
    run SampleTie.env (u "de") (u "en") 10 = Ok r
    /\ List.map fst (run_top_matches r) = [u "haus"; u "auto"; u "abcd"]
    /\ before (u "auto") (u "abcd") (run_fetched_words r).
Proof.
  eexists. split; [reflexivity|]. split; [reflexivity|].
  match goal with |- before _ _ (run_fetched_words ?r) =>
    apply (@X7_ties_follow_frequency_rank
             SampleTie.env (u "de") (u "en") 10 r
             (u "auto", ratio (u "auto") (u "car"))
             (u "abcd", ratio (u "abcd") (u "axy")) eq_refl)
  end.
  - exists [(u "haus", ratio (u "haus") (u "house"))], [], []. reflexivity.
  - reflexivity.
Defined.

(** ** The extreme scores *)

Lemma subseq_singleton c a : In c a -> subseq [c] a.
Proof.
  induction a as [|x a IH]; intros Hin; [destruct Hin|].
  destruct Hin as [->|Hin].
  - apply subseq_take, subseq_nil_l.
  - apply subseq_skip. now apply IH.
Qed.

Lemma subseq_In s a c : subseq s a -> In c s -> In c a.
Proof.
  induction 1 as [|s x a H IH|s x a H IH]; simpl; intros Hin.
  - assumption.
  - right. now apply IH.
  - destruct Hin as [->|Hin]; [now left | right; now apply IH].
Qed.

(** No common subsequence: no common character. *)
Lemma lcs_0_iff a b : lcs a b = 0 <-> forall c, In c a -> ~ In c b.
Proof.
  split.
  - intros H c Ha Hb.
    pose proof (lcs_upper (subseq_singleton _ _ Ha) (subseq_singleton _ _ Hb))
      as Hle.
    simpl in Hle. lia.
  - intros H. destruct (lcs_attained a b) as (s & Ha & Hb & <-).
    destruct s as [|c s]; [reflexivity|]. exfalso.
    apply (H c); eapply subseq_In; try eassumption; now left.
Qed.

Lemma ratio_0_iff (a b : ustring) :
  (ratio a b == 0)%Q <-> length a + length b <> 0 /\ lcs a b = 0.
Proof.
  destruct (Nat.eq_dec (length a + length b) 0) as [E|Hn].
  - rewrite (ratio_empty _ _ E). split; [discriminate | tauto].
  - rewrite (ratio_lcs a b Hn). unfold Qeq; cbn [Qnum Qden]. lia.
Qed.

(** X8. Every score of the mapping belongs to a word with a present
    translation, lies between 0 and 1, and is 1 exactly when the two
    strings handed to [ratio] (the word lower-cased then transliterated,
    the translation transliterated then lower-cased) are equal. *)
Theorem X8_score_range_and_exact_match
        (E : Env) (translations : dict (option ustring))
        (word : ustring) (s : Q) :
  get word (get_similarity_scores E translations) = Some s ->
  exists translation,
    get word translations = Some (Some translation)
    /\ (0 <= s /\ s <= 1)%Q
    /\ ((s == 1)%Q <->
        unidecode E (str_lower E word)
        = str_lower E (unidecode E translation)).
Proof.
  intros H. apply scores_get_inv in H. destruct H as (t & G & ->).
  exists t. split; [exact G|]. split; [apply similarity_bounds|].
  apply similarity_1_iff.
Qed.

Lemma X8_score_range_and_exact_match_witness :
  exists translation,
    get (u "Haus") [(u "Haus", Some (u "haus"))] = Some (Some translation)
    /\ (0 <= 8 # 8 /\ 8 # 8 <= 1)%Q
    /\ ((8 # 8 == 1)%Q <->
        unidecode Sample.env (str_lower Sample.env (u "Haus"))
        = str_lower Sample.env (unidecode Sample.env translation)).
Proof.
  exact (@X8_score_range_and_exact_match
           Sample.env [(u "Haus", Some (u "haus"))] (u "Haus") (8 # 8)%Q
           eq_refl).
Defined.

(** X9. A score is 0 exactly when the two normalized strings are not
    both empty and have no character in common. *)
Theorem X9_score_zero_iff_no_common_character
        (E : Env) (translations : dict (option ustring))
        (word translation : ustring) :
  get word translations = Some (Some translation) ->
  exists s,
    get word (get_similarity_scores E translations) = Some s
    /\ ((s == 0)%Q <->
        (normalized_word E word <> []
         \/ normalized_translation E translation <> [])
        /\ forall c, In c (normalized_word E word) ->
                     ~ In c (normalized_translation E translation)).
Proof.
  intros G. exists (similarity E word translation).
  split; [now apply scores_get|].
  unfold similarity. rewrite ratio_0_iff, lcs_0_iff.
  assert (Hlen : length (normalized_word E word)
                 + length (normalized_translation E translation) <> 0
                 <-> (normalized_word E word <> []
                      \/ normalized_translation E translation <> [])).
  { destruct (normalized_word E word), (normalized_translation E translation);
      simpl; split; intros H; try lia; try (left; discriminate);
      try (right; discriminate).
    destruct H as [H|H]; now contradiction H. }
  now rewrite Hlen.
Qed.

Lemma X9_score_zero_iff_no_common_character_witness :
  exists s,
    get (u "zug")
        (get_similarity_scores Sample.env [(u "zug", Some (u "train"))])
    = Some s
    /\ (s == 0)%Q.
Proof.
  destruct (@X9_score_zero_iff_no_common_character
              Sample.env [(u "zug", Some (u "train"))] (u "zug") (u "train")
              eq_refl) as (s & Hs & Hiff).
  exists s. split; [exact Hs|]. apply Hiff. split.
  - left. vm_compute. discriminate.
  - intros c Hc Hin. vm_compute in Hc, Hin.
    repeat (destruct Hc as [Hc|Hc];
            [subst c; repeat (destruct Hin as [Hin|Hin];
                              [discriminate Hin|]); exact Hin|]).
    exact Hc.
Defined.

(** ** The cards, the meanings and the whole script *)

Lemma map_result_Forall2 (A B : Type) (f : A -> result B)
      (P : A -> B -> Prop) l :
  (forall x, In x l -> exists y, f x = Ok y /\ P x y) ->
  exists ys, map_result f l = Ok ys /\ Forall2 P l ys.
Proof.
  induction l as [|x l IH]; intros H.
  - exists []. split; [reflexivity | constructor].
  - destruct (H x (or_introl eq_refl)) as (y & Hy & Py).
    destruct IH as (ys & Hys & Pys); [intros; apply H; now right|].
    exists (y :: ys). simpl. rewrite Hy, Hys. split; [reflexivity|].
    now constructor.
Qed.

(** A ranked item is a scored word with its translation. *)
Lemma run_top_item (E : Env) lang_to_learn native_lang word_count r item :
  run E lang_to_learn native_lang word_count = Ok r ->
  In item (run_top_matches r) ->
  exists translation,
    get (fst item) (run_translations r) = Some (Some translation)
    /\ snd item = similarity E (fst item) translation.
Proof.
  intros Hrun Hin. apply run_inv in Hrun.
  destruct Hrun as (l2n & _ & _ & Htr & Hvalid & Hscores & Htop & _).
  assert (Hwf : wf (run_translations r)).
  { rewrite Htr. apply assign_all_wf, dict_wf_nil. }
  rewrite Htop in Hin. apply top_matches_In in Hin.
  destruct item as [w s]. apply dict_In_get_wf in Hin.
  - rewrite Hscores in Hin. apply scores_get_inv in Hin.
    destruct Hin as (t & G & ->). exists t. split; [|reflexivity].
    rewrite Hvalid in G. apply valid_translations_get in G; [|exact Hwf].
    destruct G as (t' & [= <-] & G). exact G.
  - rewrite Hscores. apply scores_wf.
Qed.

Lemma run_flashcards (E : Env) lang_to_learn native_lang word_count r :
  run E lang_to_learn native_lang word_count = Ok r ->
  exists cards,
    flashcards (run_translations r) (run_top_matches r) = Ok cards
    /\ Forall2
         (fun item card =>
            card_word card = fst item
            /\ exists translation,
                card_translation card = Some translation
                /\ get (fst item) (run_translations r)
                   = Some (Some translation)
                /\ snd item = similarity E (fst item) translation
                /\ (card_line card = ExactMatch <->
                    normalized_word E (fst item)
                    = normalized_translation E translation))
         (run_top_matches r) cards.
Proof.
  intros Hrun. apply map_result_Forall2. intros item Hin.
  destruct (run_top_item _ _ _ _ _ Hrun Hin) as (t & G & Hs).
  unfold flashcard. rewrite G. eexists. split; [reflexivity|].
  cbn [card_word card_translation card_line].
  split; [reflexivity|]. exists t. repeat split; try assumption.
  - destruct (Qeq_bool (snd item) 1) eqn:Q; [|discriminate].
    intros _. apply Qeq_bool_iff in Q. rewrite Hs in Q.
    now apply similarity_1_iff.
  - intros Heq. apply similarity_1_iff in Heq. rewrite <- Hs in Heq.
    apply Qeq_bool_iff in Heq. now rewrite Heq.
Qed.

(** X10. In a run the loop over the ranked items never meets a missing
    key: it shows one card per ranked item, in order, with the word, its
    translation (never the absence marker) and the exact-match line
    exactly when the two normalized strings are equal; the score of the
    item is the similarity of the word and that translation. *)
Theorem X10_cards_show_present_translations
        (E : Env) (lang_to_learn native_lang : ustring) (word_count : Z)
        (r : Run) :
  run E lang_to_learn native_lang word_count = Ok r ->
  exists cards,
    flashcards (run_translations r) (run_top_matches r) = Ok cards
    /\ length cards = length (run_top_matches r)
    /\ Forall2
         (fun item card =>
            card_word card = fst item
            /\ exists translation,
                card_translation card = Some translation
                /\ get (fst item) (run_translations r)
                   = Some (Some translation)
                /\ snd item = similarity E (fst item) translation
                /\ (card_line card = ExactMatch <->
                    normalized_word E (fst item)
                    = normalized_translation E translation))
         (run_top_matches r) cards.
Proof.
  intros Hrun. destruct (run_flashcards _ _ _ _ Hrun) as (cards & H1 & H2).
  exists cards. split; [exact H1|]. split; [|exact H2].
  symmetry. eapply Forall2_length. exact H2.
Qed.

Lemma X10_cards_show_present_translations_witness :
  exists r cards,
    run Sample.env (u "de") (u "en") 10 = Ok r
    /\ flashcards (run_translations r) (run_top_matches r) = Ok cards
    /\ List.map card_translation cards
       = [Some (u "house"); Some (u "book")].
Proof.
  eexists.
  match goal with |- exists cards, run _ _ _ _ = Ok ?r /\ _ =>
    destruct (@X10_cards_show_present_translations
                Sample.env (u "de") (u "en") 10 r eq_refl)
      as (cards & H1 & _ & _)
  end.
  exists cards. split; [reflexivity|]. split; [exact H1|].
  vm_compute in H1. inversion H1. reflexivity.
Defined.

(** X11. The script raises exactly when the word source raises or the
    lexicon of the language pair fails to load, and with that exception;
    no failure of a lookup, of a meaning or of a card reaches the
    caller. *)
Theorem X11_script_raises_only_at_the_sources
        (E : Env) (lang_to_learn native_lang : ustring) (word_count : Z)
        (e : exn) :
  script E lang_to_learn native_lang word_count = Raise e <->
  fetch_top_words E lang_to_learn fallback_lang (Some 100%Z) = Raise e
  \/ ((exists ws,
          fetch_top_words E lang_to_learn fallback_lang (Some 100%Z) = Ok ws)
      /\ Word2word E lang_to_learn native_lang = Raise e).
Proof.
  unfold script.
  destruct (run E lang_to_learn native_lang word_count) as [r|e'] eqn:Hrun.
  - destruct (run_flashcards _ _ _ _ Hrun) as (cards & Hcards & _).
    cbn [bind]. rewrite Hcards. cbn [bind].
    apply run_inv in Hrun. destruct Hrun as (l2n & HW & Hf & _).
    rewrite Hf, HW. split; [discriminate|].
    intros [H|[_ H]]; discriminate.
  - cbn [bind]. unfold run, get_translations in Hrun.
    destruct (fetch_top_words E lang_to_learn fallback_lang (Some 100%Z))
      as [ws|e0]; cbn [bind] in Hrun.
    + destruct (Word2word E lang_to_learn native_lang) as [l2n|e1];
        cbn [bind] in Hrun; [discriminate|].
      inversion Hrun; subst. split.
      * intros [= ->]. right. split; [now exists ws | reflexivity].
      * intros [H|[_ H]]; congruence.
    + inversion Hrun; subst. split.
      * intros [= ->]. now left.
      * intros [H|[[ws H] _]]; congruence.
Qed.

Lemma X11_script_raises_only_at_the_sources_witness :
  script Sample.env (u "de") (u "de") 10
  = Raise (OtherError (u "Language pair is not supported.")).
Proof.
  apply X11_script_raises_only_at_the_sources.
  right. split; [eexists|]; reflexivity.
Defined.

Lemma nth_error_NoDup_split (A : Type) (l : list A) i x :
  NoDup l -> nth_error l i = Some x ->
  exists pre post, l = pre ++ x :: post /\ length pre = i /\ ~ In x post.
Proof.
  intros Hnd Hnth. apply nth_error_split in Hnth.
  destruct Hnth as (pre & post & -> & Hlen).
  exists pre, post. split; [reflexivity|]. split; [assumption|].
  apply NoDup_remove_2 in Hnd. intros Hin. apply Hnd.
  apply in_or_app. now right.
Qed.

(** X12. The meaning map of a run has one entry per ranked word, in the
    order of the ranking, and the entry of the word of rank [i] is the
    answer to the [i]-th call of the translation service: the
    translated text, or ["[No translation]"] when that call raises. *)
Theorem X12_meanings_follow_the_ranking
        (E : Env) (lang_to_learn native_lang : ustring) (word_count : Z)
        (r : Run) :
  run E lang_to_learn native_lang word_count = Ok r ->
  keys (run_selected_meanings r) = List.map fst (run_top_matches r)
  /\ (forall i word,
         nth_error (List.map fst (run_top_matches r)) i = Some word ->
         get word (run_selected_meanings r)
         = Some match GoogleTranslator E i lang_to_learn native_lang word with
                | Ok translated => translated
                | Raise _ => u "[No translation]"
                end).
Proof.
  intros Hrun. apply run_inv in Hrun.
  destruct Hrun as (l2n & _ & _ & _ & _ & Hscores & Htop & Hmean).
  assert (Hnd : NoDup (List.map fst (run_top_matches r))).
  { rewrite Htop. apply top_matches_NoDup. rewrite Hscores. apply scores_wf. }
  rewrite Hmean. unfold get_meanings. rewrite meanings_loop_calls. split.
  - unfold keys. rewrite assign_all_fresh by (simpl; now rewrite calls_keys).
    simpl. apply calls_keys.
  - intros i word Hnth.
    destruct (nth_error_NoDup_split _ Hnd Hnth)
      as (pre & post & Hsplit & <- & Hpost).
    rewrite Hsplit, loop_last by assumption.
    destruct (GoogleTranslator E (length pre) lang_to_learn native_lang word);
      reflexivity.
Qed.

Lemma X12_meanings_follow_the_ranking_witness :
  exists r,
    run Sample.env (u "de") (u "en") 10 = Ok r
    /\ keys (run_selected_meanings r) = [u "haus"; u "buch"]
    /\ get (u "buch") (run_selected_meanings r) = Some (u "[No translation]").
Proof.
  eexists. split; [reflexivity|].
  match goal with |- keys (run_selected_meanings ?r) = _ /\ _ =>
    destruct (@X12_meanings_follow_the_ranking
                Sample.env (u "de") (u "en") 10 r eq_refl) as (H1 & H2)
  end.
  split.
  - rewrite H1. reflexivity.
  - exact (H2 1 (u "buch") eq_refl).
Defined.

Lemma fetch_top_words_length (E : Env) language fallback (n : Z) ws :
  (0 <= n)%Z ->
  fetch_top_words E language fallback (Some n) = Ok ws ->
  (Z.of_nat (length ws) <= n)%Z.
Proof.
  intros Hn H. apply fetch_top_words_inv in H.
  destruct H as [[_ H]|[_ H]]; apply get_words_inv in H;
    destruct H as (text & _ & _ & ->); rewrite length_map;
    now apply consumed_lines_length.
Qed.

(** X13. In a run every ranked word is a fetched word, each structure
    is no larger than the one it is built from, and at most 100 words
    are fetched: the ranked list has at most [min(word_count, 100)]
    items whatever the responses. *)
Theorem X13_run_sizes
        (E : Env) (lang_to_learn native_lang : ustring) (word_count : Z)
        (r : Run) :
  run E lang_to_learn native_lang word_count = Ok r ->
  (forall w, In w (keys (run_translations r)) <-> In w (run_fetched_words r))
  /\ (forall w, In w (List.map fst (run_top_matches r)) ->
                In w (run_fetched_words r))
  /\ length (run_top_matches r) <= length (items (run_similarity_scores r))
  /\ length (items (run_similarity_scores r))
     <= length (items (run_translations r))
  /\ length (items (run_translations r)) <= length (run_fetched_words r)
  /\ length (run_fetched_words r) <= 100
  /\ ((0 <= word_count)%Z ->
      (Z.of_nat (length (run_top_matches r)) <= word_count)%Z).
Proof.
  intros Hrun. pose proof Hrun as Hinv. apply run_inv in Hinv.
  destruct Hinv as (l2n & _ & Hf & Htr & Hvalid & Hscores & Htop & _).
  assert (Hwf : wf (run_translations r)).
  { rewrite Htr. apply assign_all_wf, dict_wf_nil. }
  assert (Hkeys : forall w, In w (keys (run_translations r))
                            <-> In w (run_fetched_words r)).
  { intros w. rewrite Htr. apply loop_keys. }
  split; [exact Hkeys|]. split; [|split; [|split; [|split; [|split]]]].
  - intros w Hin. apply in_map_iff in Hin.
    destruct Hin as (item & <- & Hin).
    destruct (run_top_item _ _ _ _ _ Hrun Hin) as (t & G & _).
    apply Hkeys.
    destruct (in_dec (list_eq_dec N.eq_dec) (fst item)
                     (keys (run_translations r))) as [H|H]; [assumption|].
    apply dict_get_None_iff in H. congruence.
  - rewrite Htop. unfold top_matches, sorted_matches.
    destruct (slice_to_prefix (Some word_count)
                (sorted_desc (items (run_similarity_scores r)))) as [k ->].
    rewrite length_firstn, sorted_desc_length. lia.
  - rewrite Hscores, Hvalid.
    rewrite scores_prefilter by assumption.
    rewrite scores_items by assumption.
    rewrite <- (length_map fst), scored_items_keys.
    unfold items. rewrite <- (length_map fst (run_translations r)).
    apply filter_length_le.
  - unfold items. rewrite <- (length_map fst).
    fold (keys (run_translations r)).
    apply NoDup_incl_length; [exact Hwf|].
    intros w Hw. now apply Hkeys.
  - apply fetch_top_words_length in Hf; lia.
  - intros HN. rewrite Htop. unfold top_matches.
    rewrite slice_to_nonneg by assumption. rewrite length_firstn. lia.
Qed.

Lemma X13_run_sizes_witness :
  exists r,
    run Sample.env (u "de") (u "en") 1 = Ok r
    /\ length (run_top_matches r) <= length (items (run_similarity_scores r))
    /\ (Z.of_nat (length (run_top_matches r)) <= 1)%Z.
Proof.
  eexists. split; [reflexivity|].
  match goal with |- length (run_top_matches ?r) <= _ /\ _ =>
    destruct (@X13_run_sizes Sample.env (u "de") (u "en") 1 r eq_refl)
      as (_ & _ & H3 & _ & _ & _ & H7)
  end.
  split; [exact H3 | apply H7; lia].
Defined.
